(** * Lantern "Time to Interactive" metric (Interactive.ts)

    A shallow embedding of
    [front_end/models/trace/lantern/metrics/Interactive.ts] and of the parts
    of the Lantern core it calls.  JavaScript numbers are IEEE 754 binary64
    values, modelled by Rocq's primitive [float]; [undefined] is [None].
    Promise rejection ([throw] inside an [async] function) is an error
    result; the object store of dependency graphs and the log of simulator
    runs are threaded explicitly. *)

From Stdlib Require Import Floats ZArith List String Bool Lia PeanoNat.
From Stdlib Require Import Permutation DecimalString Ascii.
Import ListNotations.

Set Warnings "-inexact-float".
Set Warnings "-register-all".

(** ** JavaScript numbers *)

Module JS.

Local Open Scope float_scope.

(** [ToBoolean] on a number: [NaN], [+0] and [-0] are falsy. *)
Definition truthy (x : float) : bool := negb (is_nan x || is_zero x).

(** [x || 0] where [x] is a number or [undefined]. *)
Definition or_zero (x : option float) : float :=
  match x with
  | Some v => if truthy v then v else 0
  | None => 0
  end.

(** [x > y] where [x] is a number or [undefined] ([undefined] converts to
    [NaN], and every comparison with [NaN] is false). *)
Definition gt (x : option float) (y : float) : bool :=
  match x with
  | Some v => y <? v
  | None => false
  end.

(** [x >= y] on numbers. *)
Definition ge (x y : float) : bool := y <=? x.

(** [Math.max(a, b)]: [NaN] if either argument is [NaN]; [+0] is larger
    than [-0]. *)
Definition Math_max (a b : float) : float :=
  if is_nan a || is_nan b then nan
  else if a <? b then b
  else if b <? a then a
  else match Prim2SF a with
       | S754_zero true => b
       | _ => a
       end.

(** [Math.round(x)] as an integer: the integer nearest to [x], ties towards
    +infinity, that is [floor (x + 1/2)] computed exactly.  [None] for [NaN]
    and the infinities, which [Math.round] returns unchanged. *)
Definition Math_round (x : float) : option Z :=
  match Prim2SF x with
  | S754_zero _ => Some 0%Z
  | S754_finite s m e =>
      let n := if s then Z.neg m else Z.pos m in
      Some (if (0 <=? e)%Z then (n * 2 ^ e)%Z
            else ((2 * n + 2 ^ (- e)) / 2 ^ (- e + 1))%Z)
  | _ => None
  end.

End JS.

(** ** Data model: nodes, node timings, simulation results *)

(** Modelled from the spec: the node kinds [BaseNode.types] (BaseNode.ts is
    missing): "Kind-polymorphic over {CPU, Network}". *)
Inductive NodeType := NETWORK | CPU.

Definition NodeType_eqb (a b : NodeType) : bool :=
  match a, b with
  | NETWORK, NETWORK | CPU, CPU => true
  | _, _ => false
  end.

(** Modelled from the spec: the request descriptor of a network node (its
    type declaration is missing): "{url, resourceType, priority,
    transferSize, networkEndTime, ...}".  [resourceType] and [priority] are
    the strings the code compares them with. *)
Record NetworkRequest := {
  url : string;
  resourceType : string;
  priority : string;
  transferSize : float;
  networkEndTime : float
}.

(** Modelled from the spec: [Node<T> = CPUNode<T> | NetworkNode<T>] (the
    node classes are missing): a stable identity [id]; a CPU task carries
    its [duration] in microseconds, a network node its [request]. *)
Inductive Node :=
| CPUNode (id : string) (duration : float)
| NetworkNode (id : string) (request : NetworkRequest).

Definition type (node : Node) : NodeType :=
  match node with
  | CPUNode _ _ => CPU
  | NetworkNode _ _ => NETWORK
  end.

Definition id (node : Node) : string :=
  match node with
  | CPUNode i _ | NetworkNode i _ => i
  end.

Module NodeTiming.
(** Modelled from the spec: a node timing "{startTime, endTime, duration}"
    (its type declaration is missing).  Each field is a number or
    [undefined] ([None]), which is what [x || 0] in the code provides
    for. *)
Record t := {
  startTime : option float;
  endTime : option float;
  duration : option float
}.
End NodeTiming.

(** [Map<Node, NodeTiming>], as the list of its entries in iteration
    order. *)
Definition NodeTimings := list (Node * NodeTiming.t).

Module Simulation.
(** Modelled from the spec: [Lantern.Simulation.Result], "{timeInMs,
    nodeTimings}" (types/lantern.ts is missing). *)
Record Result := {
  timeInMs : float;
  nodeTimings : NodeTimings
}.

(** Modelled from the spec: [Lantern.Simulation.MetricCoefficients], the
    "triple {intercept, optimisticWeight, pessimisticWeight}", with the
    field names of [Interactive.coefficients]. *)
Record MetricCoefficients := {
  intercept : float;
  optimistic : float;
  pessimistic : float
}.
End Simulation.

Module Metrics.
(** Modelled from the spec: [Lantern.Metrics.Result], "{timing,
    optimisticEstimate, pessimisticEstimate, optimisticGraph,
    pessimisticGraph}" (types/lantern.ts is missing).  The two graphs are
    references to graph objects of the store (see [World] below). *)
Record Result := {
  timing : float;
  optimisticEstimate : Simulation.Result;
  pessimisticEstimate : Simulation.Result;
  optimisticGraph : nat;
  pessimisticGraph : nat
}.
End Metrics.

(** Modelled from the spec: [Extras] (Metric.ts is missing), with the
    fields Interactive.ts reads: the results of earlier metrics, and the
    branch flag [optimistic] that the base computation sets. *)
Record Extras := {
  optimistic : bool;
  fcpResult : option Metrics.Result;
  lcpResult : option Metrics.Result
}.

(** [Omit<Extras, 'optimistic'>], what a caller of [compute] passes. *)
Module ExtrasInput.
Record t := {
  fcpResult : option Metrics.Result;
  lcpResult : option Metrics.Result
}.
End ExtrasInput.

(** [{...extras, optimistic: flag}] where [extras] may be [undefined]. *)
Definition withOptimistic (extras : option ExtrasInput.t) (flag : bool) : Extras :=
  match extras with
  | Some e => {| optimistic := flag;
                 fcpResult := ExtrasInput.fcpResult e;
                 lcpResult := ExtrasInput.lcpResult e |}
  | None => {| optimistic := flag; fcpResult := None; lcpResult := None |}
  end.

(** ** Errors and effects *)

(** The error kinds of the core.  Both [throw new Error(...)] of
    Interactive.ts report an absent [lcpResult]: they are
    [MissingDependency] with the message of the [Error]. *)
Inductive LanternError :=
| MissingDependency (message : string)
| MalformedGraph
| SimulatorFailure.

Inductive Outcome (A : Type) :=
| Ok (value : A)
| Throw (error : LanternError).

Arguments Ok {A} value.
Arguments Throw {A} error.

(** ** Dependency graphs *)

(** Modelled from the spec: the graph side of a node (BaseNode.ts is
    missing), "ordered list of owned dependent nodes (downstream)", here the
    ids of the dependents.  The "non-owning back-references to predecessors"
    are derived from these. *)
Record GraphNode := {
  node : Node;
  dependents : list string
}.

(** Modelled from the spec: a dependency graph as the table of its nodes
    ("nodes in a flat table", section 9). *)
Definition Graph := list GraphNode.

Definition nodeId (gn : GraphNode) : string := id (node gn).

Definition ids (G : Graph) : list string := map nodeId G.

Definition hasId (i : string) (gn : GraphNode) : bool := String.eqb (nodeId gn) i.

Definition dependentsOf (G : Graph) (i : string) : list string :=
  flat_map dependents (filter (hasId i) G).

(** [x -> y] is a dependency edge of [G]. *)
Definition edge (G : Graph) (x y : string) : Prop :=
  exists gn, In gn G /\ nodeId gn = x /\ In y (dependents gn).

Definition edgeb (G : Graph) (x y : string) : bool :=
  existsb (fun gn => hasId x gn && existsb (String.eqb y) (dependents gn)) G.

(** Dependency paths: of any length, and of at least one edge. *)
Inductive path (G : Graph) : string -> string -> Prop :=
| path_refl x : path G x x
| path_step x y z : edge G x y -> path G y z -> path G x z.

Inductive path1 (G : Graph) : string -> string -> Prop :=
| path1_step x y z : edge G x y -> path G y z -> path1 G x z.

(** Modelled from the spec: the data-model invariant of a graph, "the
    structure is a single-rooted DAG; no cycles", with stable identities
    and no dangling edge. *)
Record DAG (G : Graph) : Prop := {
  DAG_ids : NoDup (ids G);
  DAG_closed : forall x y, edge G x y -> In y (ids G);
  DAG_acyclic : forall x, ~ path1 G x x
}.

(** Modelled from the spec: one step of [cloneWithRelationships], removing
    node [b] from the edges: every predecessor of [b] gets the dependents of
    [b] in place of [b] ("if A->B->C and B is excluded, an edge A->C must
    exist in the result"). *)
Definition bypass (b : string) (G : Graph) : Graph :=
  let successors := dependentsOf G b in
  map (fun gn =>
         {| node := node gn;
            dependents :=
              nodup string_dec
                (remove string_dec b
                   (if existsb (String.eqb b) (dependents gn)
                    then dependents gn ++ successors
                    else dependents gn)) |}) G.

(** Modelled from the spec: the bypass of every node of [bs], in order. *)
Definition bypassAll (bs : list string) (G : Graph) : Graph :=
  fold_left (fun g b => bypass b g) bs G.

(** Modelled from the spec: the check for a "dangling edge detected during
    traversal/cloning": every dependent is a node of the graph. *)
Definition noDanglingEdge (G : Graph) : bool :=
  forallb (fun gn =>
             forallb (fun d => existsb (String.eqb d) (ids G)) (dependents gn)) G.

(** Modelled from the spec: the cycle detection of [cloneWithRelationships]
    ("fails (aborts) if the source graph contains a cycle", never by
    unbounded recursion).  It visits each node id once: a node that depends
    on itself once the nodes visited before it are bypassed lies on a
    cycle. *)
Fixpoint hasCycleFrom (order : list string) (G : Graph) : bool :=
  match order with
  | [] => false
  | b :: rest => if edgeb G b b then true else hasCycleFrom rest (bypass b G)
  end.

(** Modelled from the spec: the cycle detection run over all the nodes. *)
Definition hasCycle (G : Graph) : bool := hasCycleFrom (ids G) G.

(** ** The store of graph objects and the simulator log *)

(** The state the computation runs in.  A graph object is known by its
    reference, its position in the store; [cloneWithRelationships]
    allocates a new one at the end.  [simulated] lists the references
    handed to the simulator, oldest first. *)
Record World := {
  graphs : list Graph;
  simulated : list nat
}.

Definition M (A : Type) : Type := World -> Outcome A * World.

Definition ret {A} (a : A) : M A := fun w => (Ok a, w).

Definition throw {A} (e : LanternError) : M A := fun w => (Throw e, w).

Definition bind {A B} (c : M A) (k : A -> M B) : M B :=
  fun w =>
    match c w with
    | (Ok a, w') => k a w'
    | (Throw e, w') => (Throw e, w')
    end.

Definition lift {A} (o : Outcome A) : M A := fun w => (o, w).

Notation "x <- c ;; k" := (bind c (fun x => k))
  (at level 61, c at next level, right associativity).

(** Modelled from the spec: the ids of the nodes that [predicate]
    excludes. *)
Definition excluded (predicate : Node -> bool) (G : Graph) : list string :=
  ids (filter (fun gn => negb (predicate (node gn))) G).

(** Modelled from the spec: the graph of a clone, "a new tree containing
    exactly the nodes satisfying [predicate], preserving every transitive
    dependency edge between surviving nodes": the excluded nodes are
    bypassed, then dropped from the table. *)
Definition prune (predicate : Node -> bool) (G : Graph) : Graph :=
  filter (fun gn => predicate (node gn)) (bypassAll (excluded predicate G) G).

(** Modelled from the spec: [BaseNode.cloneWithRelationships] (BaseNode.ts
    is missing).  "Returns a new tree containing exactly the nodes
    satisfying [predicate], preserving every transitive dependency edge
    between surviving nodes ...  Must not mutate the source graph; must be
    deterministic for a given predicate and graph.  Fails (aborts) if the
    source graph contains a cycle"; a dangling edge is the other
    [MalformedGraph] of the spec, and so is a reference to no graph
    object, which JavaScript cannot form.  The clone is a new graph object
    at the end of the store. *)
Definition cloneWithRelationships
    (predicate : Node -> bool) (this : nat) : M nat :=
  fun w =>
    match nth_error (graphs w) this with
    | None => (Throw MalformedGraph, w)
    | Some G =>
        if noDanglingEdge G && negb (hasCycle G)
        then (Ok (List.length (graphs w)),
              {| graphs := graphs w ++ [prune predicate G];
                 simulated := simulated w |})
        else (Throw MalformedGraph, w)
    end.

(** ** Metric (base policy) *)

(** Modelled from the spec: the simulator options (their type declaration
    is missing), "{round-trip time, throughput, CPU slowdown multiplier,
    per-origin and global connection limits}", passed through opaquely. *)
Record Options := {
  rtt : float;
  throughput : float;
  cpuSlowdownMultiplier : float;
  maximumConcurrentRequestsPerOrigin : float;
  maximumConcurrentRequests : float
}.

(** Modelled from the spec: the Simulator collaborator (Simulator.ts is
    missing).  "Given a graph and throttling options, returns per-node
    timings and a total completion time"; [None] is its opaque failure. *)
Definition Simulator := Options -> Graph -> option Simulation.Result.

(** Modelled from the spec: [Lantern.Simulation.MetricComputationDataInput]
    (its type declaration is missing): the graph object, the simulator and
    its options. *)
Record MetricComputationDataInput := {
  simulator : Simulator;
  options : Options;
  graph : nat
}.

Module Metric.

Local Open Scope float_scope.

(** Modelled from the spec: the hooks a concrete metric supplies (Metric.ts
    is missing), "coefficients, pruneOptimistic, prunePessimistic,
    extractEstimate", under the names Interactive.ts overrides. *)
Record Policy := {
  coefficients : Simulation.MetricCoefficients;
  getOptimisticGraph : nat -> M nat;
  getPessimisticGraph : nat -> M nat;
  getEstimateFromSimulation : Simulation.Result -> Extras -> Outcome Simulation.Result
}.

(** Modelled from the spec: one run of the simulator on the graph object
    [g], logged in the world; the graph is read, never written. *)
Definition simulate (data : MetricComputationDataInput) (g : nat) : M Simulation.Result :=
  fun w =>
    match nth_error (graphs w) g with
    | None => (Throw MalformedGraph, w)
    | Some G =>
        let w' := {| graphs := graphs w; simulated := simulated w ++ [g] |} in
        match simulator data (options data) G with
        | Some r => (Ok r, w')
        | None => (Throw SimulatorFailure, w')
        end
    end.

(** Modelled from the spec: step 4 of [Metric.compute], "timing = intercept
    + optimisticWeight * optimisticEstimate.timeInMs + pessimisticWeight *
    pessimisticEstimate.timeInMs". *)
Definition blend (c : Simulation.MetricCoefficients)
    (optimisticEstimate pessimisticEstimate : Simulation.Result) : float :=
  Simulation.intercept c
  + Simulation.optimistic c * Simulation.timeInMs optimisticEstimate
  + Simulation.pessimistic c * Simulation.timeInMs pessimisticEstimate.

(** Modelled from the spec: [Metric.compute] (Metric.ts is not among the
    sources), the five steps of the base policy: prune twice, simulate
    twice, post-process both, blend, return the result. *)
Definition compute (policy : Policy)
    (data : MetricComputationDataInput) (extras : option ExtrasInput.t)
    : M Metrics.Result :=
  optimisticGraph <- getOptimisticGraph policy (graph data) ;;
  pessimisticGraph <- getPessimisticGraph policy (graph data) ;;
  rawOptimistic <- simulate data optimisticGraph ;;
  rawPessimistic <- simulate data pessimisticGraph ;;
  optimisticEstimate <-
    lift (getEstimateFromSimulation policy rawOptimistic (withOptimistic extras true)) ;;
  pessimisticEstimate <-
    lift (getEstimateFromSimulation policy rawPessimistic (withOptimistic extras false)) ;;
  ret {| Metrics.timing := blend (coefficients policy) optimisticEstimate pessimisticEstimate;
         Metrics.optimisticEstimate := optimisticEstimate;
         Metrics.pessimisticEstimate := pessimisticEstimate;
         Metrics.optimisticGraph := optimisticGraph;
         Metrics.pessimisticGraph := pessimisticGraph |}.

End Metric.

(** ** Interactive.ts *)

Module Interactive.

Local Open Scope float_scope.
Local Open Scope string_scope.

(** Any CPU task of 20 ms or more will end up being a critical long task on
    mobile. *)
Definition CRITICAL_LONG_TASK_THRESHOLD : float := 20.

Definition coefficients : Simulation.MetricCoefficients :=
  {| Simulation.intercept := 0;
     Simulation.optimistic := 0.45;
     Simulation.pessimistic := 0.55 |}.

(** The arrow function handed to [cloneWithRelationships]. *)
Definition isCriticalNode (node : Node) : bool :=
  (* Adjust the critical long task threshold for microseconds *)
  let minimumCpuTaskDuration := CRITICAL_LONG_TASK_THRESHOLD * 1000 in
  match node with
  | CPUNode _ duration =>
      (* Include everything that might be a long task *)
      JS.gt (Some duration) minimumCpuTaskDuration
  | NetworkNode _ request =>
      (* Include all scripts and high priority requests, exclude all images *)
      let isImage := String.eqb (resourceType request) "Image" in
      let isScript := String.eqb (resourceType request) "Script" in
      negb isImage
      && (isScript
          || String.eqb (priority request) "High"
          || String.eqb (priority request) "VeryHigh")
  end.

Definition getOptimisticGraph (dependencyGraph : nat) : M nat :=
  cloneWithRelationships isCriticalNode dependencyGraph.

Definition getPessimisticGraph (dependencyGraph : nat) : M nat :=
  ret dependencyGraph.

(** The callback of [.filter]. *)
Definition isLongTask (duration : float) (entry : Node * NodeTiming.t) : bool :=
  let '(node, timing) := entry in
  if negb (NodeType_eqb (type node) CPU) then false
  else JS.gt (NodeTiming.duration timing) duration.

(** The callback of [.reduce]. *)
Definition reducer (max : float) (x : option float) : float :=
  JS.Math_max (JS.or_zero (Some max)) (JS.or_zero x).

(** [static getLastLongTaskEndTime(nodeTimings, duration = 50)]: the second
    argument is [None] when the caller leaves it out. *)
Definition getLastLongTaskEndTime
    (nodeTimings : NodeTimings) (duration : option float) : float :=
  let duration := match duration with Some d => d | None => 50 end in
  fold_left reducer
    (map (fun entry : Node * NodeTiming.t => NodeTiming.endTime (snd entry))
         (filter (isLongTask duration) nodeTimings))
    0.

Definition getEstimateFromSimulation
    (simulationResult : Simulation.Result) (extras : Extras)
    : Outcome Simulation.Result :=
  match lcpResult extras with
  | None => Throw (MissingDependency "missing lcpResult")
  | Some lcp =>
      let lastTaskAt :=
        getLastLongTaskEndTime (Simulation.nodeTimings simulationResult) None in
      let minimumTime :=
        if optimistic extras
        then Simulation.timeInMs (Metrics.optimisticEstimate lcp)
        else Simulation.timeInMs (Metrics.pessimisticEstimate lcp) in
      Ok {| Simulation.timeInMs := JS.Math_max minimumTime lastTaskAt;
            Simulation.nodeTimings := Simulation.nodeTimings simulationResult |}
  end.

(** The metric as the base policy sees it ([this] in [super.compute]). *)
Definition policy : Metric.Policy :=
  {| Metric.coefficients := coefficients;
     Metric.getOptimisticGraph := getOptimisticGraph;
     Metric.getPessimisticGraph := getPessimisticGraph;
     Metric.getEstimateFromSimulation := getEstimateFromSimulation |}.

(** [extras?.lcpResult]. *)
Definition lcpResultOf (extras : option ExtrasInput.t) : option Metrics.Result :=
  match extras with
  | Some e => ExtrasInput.lcpResult e
  | None => None
  end.

Definition compute
    (data : MetricComputationDataInput) (extras : option ExtrasInput.t)
    : M Metrics.Result :=
  match lcpResultOf extras with
  | None => throw (MissingDependency "LCP is required to calculate the Interactive metric")
  | Some lcpResult =>
      metricResult <- Metric.compute policy data extras ;;
      ret {| Metrics.timing :=
               JS.Math_max (Metrics.timing metricResult) (Metrics.timing lcpResult);
             Metrics.optimisticEstimate := Metrics.optimisticEstimate metricResult;
             Metrics.pessimisticEstimate := Metrics.pessimisticEstimate metricResult;
             Metrics.optimisticGraph := Metrics.optimisticGraph metricResult;
             Metrics.pessimisticGraph := Metrics.pessimisticGraph metricResult |}
  end.

End Interactive.

(** ** Reference readings and example inputs *)

Module Examples.

Local Open Scope float_scope.
Local Open Scope string_scope.

(** A node timing whose [endTime] went through [x || 0]. *)
Definition endTimeOrZero (entry : Node * NodeTiming.t) : Node * NodeTiming.t :=
  (fst entry,
   {| NodeTiming.startTime := NodeTiming.startTime (snd entry);
      NodeTiming.endTime := Some (JS.or_zero (NodeTiming.endTime (snd entry)));
      NodeTiming.duration := NodeTiming.duration (snd entry) |}).

(** One long CPU task (60 ms) that ends at a negative time. *)
Definition negativeEndTask : Node * NodeTiming.t :=
  (CPUNode "task" 60000,
   {| NodeTiming.startTime := Some (-65);
      NodeTiming.endTime := Some (-5);
      NodeTiming.duration := Some 60 |}).

Definition negativeEndTimings : NodeTimings := [negativeEndTask].

(** A small dependency graph: the document A, an image B it loads, a long
    task C (30 ms) after the image, and a short task D after A and C.
    A -> B -> C -> D and A -> D. *)
Definition request (resourceType priority : string) : NetworkRequest :=
  {| url := "https://example.com/";
     resourceType := resourceType;
     priority := priority;
     transferSize := 1000;
     networkEndTime := 100 |}.

Definition exampleGraph : Graph :=
  [ {| node := NetworkNode "A" (request "Document" "VeryHigh");
       dependents := ["B"; "D"] |};
    {| node := NetworkNode "B" (request "Image" "High");
       dependents := ["C"] |};
    {| node := CPUNode "C" 30000; dependents := ["D"] |};
    {| node := CPUNode "D" 10; dependents := [] |} ].

(** Two tasks that wait for each other. *)
Definition cyclicGraph : Graph :=
  [ {| node := CPUNode "X" 30000; dependents := ["Y"] |};
    {| node := CPUNode "Y" 30000; dependents := ["X"] |} ].

Definition exampleWorld : World :=
  {| graphs := [exampleGraph]; simulated := [] |}.

(** A simulator stub: every node runs for 60 ms and ends at 1200 ms. *)
Definition exampleSimulator : Simulator :=
  fun _ G =>
    Some {| Simulation.timeInMs := 1200;
            Simulation.nodeTimings :=
              map (fun gn =>
                     (node gn,
                      {| NodeTiming.startTime := Some 1140;
                         NodeTiming.endTime := Some 1200;
                         NodeTiming.duration := Some 60 |})) G |}.

Definition exampleOptions : Options :=
  {| rtt := 150; throughput := 1600; cpuSlowdownMultiplier := 4;
     maximumConcurrentRequestsPerOrigin := 6;
     maximumConcurrentRequests := 10 |}.

Definition exampleData : MetricComputationDataInput :=
  {| simulator := exampleSimulator; options := exampleOptions; graph := 0 |}.

Definition exampleEstimate (timeInMs : float) : Simulation.Result :=
  {| Simulation.timeInMs := timeInMs; Simulation.nodeTimings := [] |}.

(** An LCP result with the given [timing]. *)
Definition exampleLcp (timing : float) : Metrics.Result :=
  {| Metrics.timing := timing;
     Metrics.optimisticEstimate := exampleEstimate 1107;
     Metrics.pessimisticEstimate := exampleEstimate 1134;
     Metrics.optimisticGraph := 0;
     Metrics.pessimisticGraph := 0 |}.

Definition exampleExtras (timing : float) : option ExtrasInput.t :=
  Some {| ExtrasInput.fcpResult := None;
          ExtrasInput.lcpResult := Some (exampleLcp timing) |}.

End Examples.

(** ** More example inputs *)

Module MoreExamples.

Local Open Scope float_scope.
Local Open Scope string_scope.

Definition timing (endTime duration : float) : NodeTiming.t :=
  {| NodeTiming.startTime := Some (endTime - duration);
     NodeTiming.endTime := Some endTime;
     NodeTiming.duration := Some duration |}.

(** Three CPU tasks of 60, 80 and 120 ms and a slow script download. *)
Definition longTasks : NodeTimings :=
  [ (CPUNode "t1" 60000, timing 400 60);
    (CPUNode "t2" 80000, timing 900 80);
    (NetworkNode "s" (Examples.request "Script" "High"), timing 2000 700);
    (CPUNode "t3" 120000, timing 650 120) ].

End MoreExamples.

(** ** Reading [getLastLongTaskEndTime] as a maximum *)

(** A value that [x || 0] can produce: [+0] or a truthy number. *)
Definition plain (x : float) : Prop := (x = 0)%float \/ JS.truthy x = true.

(** The end times that the reduction of [getLastLongTaskEndTime] sees: those
    of the entries its filter keeps, in order. *)
Definition longTaskEnds (d : float) (nodeTimings : NodeTimings)
    : list (option float) :=
  map (fun entry : Node * NodeTiming.t => NodeTiming.endTime (snd entry))
      (filter (Interactive.isLongTask d) nodeTimings).

(** [r] is the largest of 0 and the end times [ends], each read as
    [endTime || 0]. *)
Definition largest (ends : list (option float)) (r : float) : Prop :=
  plain r
  /\ (0 <=? r)%float = true
  /\ (forall x, In x ends -> (JS.or_zero x <=? r)%float = true)
  /\ ((r = 0)%float \/ In (Some r) ends).

(** ** SourceMapScopes.ts *)

(** [front_end/core/sdk/SourceMapScopes.ts], the decoder of the source map
    "Scopes" proposal.  The numbers here are the integers that the VLQ
    decoder returns, modelled by [Z].  The two generators read their input
    through [TokenIterator] of SourceMap.ts, which is missing: the decoders
    take the generator as a parameter, and a generator is the sequence of
    items it yields, ended by its return or by the error it throws. *)
Module SourceMapScopes.

Local Open Scope string_scope.
Local Open Scope Z_scope.

(** How a call completes: with a value, or with a thrown [Error] and its
    message. *)
Inductive Completion (A : Type) :=
| Normal (value : A)
| Abrupt (message : string).

Arguments Normal {A} value.
Arguments Abrupt {A} message.

(** What a generator does when it is iterated to its end. *)
Inductive Generator (A : Type) :=
| Done
| Raise (message : string)
| Yield (item : A) (rest : Generator A).

Arguments Done {A}.
Arguments Raise {A} message.
Arguments Yield {A} item rest.

Record Position := {
  line : Z;
  column : Z
}.

Record OriginalPosition := {
  position : Position;
  sourceIndex : Z
}.

Inductive ScopeKind := global | class | function | block.

(** [interface OriginalScope].  An entry of [variables] is [names[idx]],
    which is [undefined] ([None]) when [idx] is not an index of [names]. *)
Inductive OriginalScope :=
| Build_OriginalScope
    (start end_ : Position) (kind : ScopeKind) (name : option string)
    (variables : list (option string)) (children : list OriginalScope).

Record BindingRange := {
  value : option string;
  from : Position;
  to : Position
}.

(** An entry of [GeneratedRange.values]. *)
Inductive Binding :=
| Expression (value : option string)
| BindingRanges (ranges : list BindingRange).

(** [interface GeneratedRange]. *)
Inductive GeneratedRange :=
| Build_GeneratedRange
    (start end_ : Position) (originalScope : option OriginalScope)
    (callsite : option OriginalPosition) (values : list Binding)
    (children : list GeneratedRange).

(** [EncodedOriginalScopeStart | EncodedOriginalScopeEnd]; a start item is
    the one that has a [kind]. *)
Inductive EncodedOriginalScopeItem :=
| EncodedOriginalScopeStart
    (line column kind flags : Z) (name : option Z) (variables : list Z)
| EncodedOriginalScopeEnd (line column : Z).

(** [EncodedGeneratedRangeStart | EncodedGeneratedRangeEnd]; a start item
    is the one that has [flags]. *)
Inductive EncodedGeneratedRangeItem :=
| EncodedGeneratedRangeStart (line column flags : Z)
| EncodedGeneratedRangeEnd (line column : Z).

Definition isStart (item : EncodedOriginalScopeItem) : bool :=
  match item with
  | EncodedOriginalScopeStart _ _ _ _ _ _ => true
  | EncodedOriginalScopeEnd _ _ => false
  end.

Definition isRangeStart (item : EncodedGeneratedRangeItem) : bool :=
  match item with
  | EncodedGeneratedRangeStart _ _ _ => true
  | EncodedGeneratedRangeEnd _ _ => false
  end.

(** [names[idx]]. *)
Definition at_ (names : list string) (idx : Z) : option string :=
  if idx <? 0 then None else nth_error names (Z.to_nat idx).

Definition resolveName (idx : option Z) (names : list string) : option string :=
  match idx with
  | None => None
  | Some idx => if idx <? 0 then None else at_ names idx
  end.

(** The [case] labels of [decodeKind]. *)
Definition kindOf (kind : Z) : option ScopeKind :=
  if kind =? 1 then Some global
  else if kind =? 2 then Some function
  else if kind =? 3 then Some class
  else if kind =? 4 then Some block
  else None.

(** A number in a template literal. *)
Definition toString (n : Z) : string := NilZero.string_of_int (Z.to_int n).

Definition decodeKind (kind : Z) : Completion ScopeKind :=
  match kindOf kind with
  | Some k => Normal k
  | None => Abrupt ("Unknown scope kind " ++ toString kind)
  end.

Definition quote : string := String "034"%char EmptyString.

Definition itemLine (item : EncodedOriginalScopeItem) : Z :=
  match item with
  | EncodedOriginalScopeStart line _ _ _ _ _ => line
  | EncodedOriginalScopeEnd line _ => line
  end.

Definition itemColumn (item : EncodedOriginalScopeItem) : Z :=
  match item with
  | EncodedOriginalScopeStart _ column _ _ _ _ => column
  | EncodedOriginalScopeEnd _ column => column
  end.

(** [scope.end = end]. *)
Definition setEnd (scope : OriginalScope) (end_ : Position) : OriginalScope :=
  match scope with
  | Build_OriginalScope start _ kind name variables children =>
      Build_OriginalScope start end_ kind name variables children
  end.

(** [parent.children.push(scope)]. *)
Definition pushChild (parent scope : OriginalScope) : OriginalScope :=
  match parent with
  | Build_OriginalScope start end_ kind name variables children =>
      Build_OriginalScope start end_ kind name variables (children ++ [scope])
  end.

(** The [for ... of] loop of [decodeOriginalScope] and the [throw] after
    it.  The head of [scopeStack] is the top of the stack. *)
Fixpoint decodeOriginalScopeLoop
    (names : list string) (items : Generator EncodedOriginalScopeItem)
    (scopeStack : list OriginalScope) (line : Z) : Completion OriginalScope :=
  match items with
  | Done => Abrupt "Malformed original scope encoding"
  | Raise message => Abrupt message
  | Yield item rest =>
      let line := line + itemLine item in
      let column := itemColumn item in
      match item with
      | EncodedOriginalScopeStart _ _ kind _ name variables =>
          match decodeKind kind with
          | Abrupt message => Abrupt message
          | Normal kind =>
              let name := resolveName name names in
              let variables := map (fun idx => at_ names idx) variables in
              decodeOriginalScopeLoop names rest
                (Build_OriginalScope
                   {| line := line; column := column |}
                   {| line := line; column := column |}
                   kind name variables [] :: scopeStack)
                line
          end
      | EncodedOriginalScopeEnd _ _ =>
          match scopeStack with
          | [] =>
              Abrupt ("Scope items not nested properly: encountered " ++ quote
                      ++ "end" ++ quote ++ " item without " ++ quote ++ "start"
                      ++ quote ++ " item")
          | scope :: scopeStack =>
              let scope := setEnd scope {| line := line; column := column |} in
              match scopeStack with
              | [] =>
                  (* We are done. There might be more top-level scopes but we
                     only allow one. *)
                  Normal scope
              | parent :: scopeStack =>
                  decodeOriginalScopeLoop names rest
                    (pushChild parent scope :: scopeStack) line
              end
          end
      end
  end.

Definition decodeOriginalScope
    (decodeOriginalScopeItems : string -> Generator EncodedOriginalScopeItem)
    (encodedOriginalScope : string) (names : list string)
    : Completion OriginalScope :=
  decodeOriginalScopeLoop names
    (decodeOriginalScopeItems encodedOriginalScope) [] 0.

(** [encodedOriginalScopes.map(scope => decodeOriginalScope(scope, names))]:
    the first call that throws ends the whole. *)
Fixpoint decodeOriginalScopes
    (decodeOriginalScopeItems : string -> Generator EncodedOriginalScopeItem)
    (encodedOriginalScopes : list string) (names : list string)
    : Completion (list OriginalScope) :=
  match encodedOriginalScopes with
  | [] => Normal []
  | scope :: rest =>
      match decodeOriginalScope decodeOriginalScopeItems scope names with
      | Abrupt message => Abrupt message
      | Normal decoded =>
          match decodeOriginalScopes decodeOriginalScopeItems rest names with
          | Abrupt message => Abrupt message
          | Normal others => Normal (decoded :: others)
          end
      end
  end.

Definition rangeItemLine (item : EncodedGeneratedRangeItem) : Z :=
  match item with
  | EncodedGeneratedRangeStart line _ _ => line
  | EncodedGeneratedRangeEnd line _ => line
  end.

Definition rangeItemColumn (item : EncodedGeneratedRangeItem) : Z :=
  match item with
  | EncodedGeneratedRangeStart _ column _ => column
  | EncodedGeneratedRangeEnd _ column => column
  end.

(** [range.end = end]. *)
Definition setRangeEnd (range : GeneratedRange) (end_ : Position)
    : GeneratedRange :=
  match range with
  | Build_GeneratedRange start _ originalScope callsite values children =>
      Build_GeneratedRange start end_ originalScope callsite values children
  end.

(** [parent.children.push(range)]. *)
Definition pushRange (parent range : GeneratedRange) : GeneratedRange :=
  match parent with
  | Build_GeneratedRange start end_ originalScope callsite values children =>
      Build_GeneratedRange start end_ originalScope callsite values
        (children ++ [range])
  end.

(** The [for ... of] loop of [decodeGeneratedRanges] and the [throw] after
    it.  The map [rangeToStartItem] is written and never read; it is left
    out.  The head of [rangeStack] is the top of the stack. *)
Fixpoint decodeGeneratedRangesLoop
    (items : Generator EncodedGeneratedRangeItem)
    (rangeStack : list GeneratedRange) : Completion GeneratedRange :=
  match items with
  | Done => Abrupt "Malformed generated range encoding"
  | Raise message => Abrupt message
  | Yield item rest =>
      let position :=
        {| line := rangeItemLine item; column := rangeItemColumn item |} in
      if isRangeStart item then
        decodeGeneratedRangesLoop rest
          (Build_GeneratedRange position position None None [] []
           :: rangeStack)
      else
        match rangeStack with
        | [] =>
            Abrupt ("Range items not nested properly: encountered " ++ quote
                    ++ "end" ++ quote ++ " item without " ++ quote ++ "start"
                    ++ quote ++ " item")
        | range :: rangeStack =>
            let range := setRangeEnd range position in
            match rangeStack with
            | [] => Normal range
            | parent :: rangeStack =>
                decodeGeneratedRangesLoop rest
                  (pushRange parent range :: rangeStack)
            end
        end
  end.

Definition decodeGeneratedRanges
    (decodeGeneratedRangeItems : string -> Generator EncodedGeneratedRangeItem)
    (encodedGeneratedRange : string) (_originalScopes : list OriginalScope)
    (_names : list string) : Completion GeneratedRange :=
  decodeGeneratedRangesLoop (decodeGeneratedRangeItems encodedGeneratedRange) [].

(** The two generators.  [TokenIterator] (SourceMap.ts) is missing: it is
    taken as a parameter, an object state with the five methods the
    generators call, each of which may change the state or throw.  A
    [while] loop is run for at most [fuel] rounds; [None] says that the
    fuel did not suffice. *)
Section Items.

Variable TokenIterator : Type.
Variable newTokenIterator : string -> Completion TokenIterator.
Variable hasNext : TokenIterator -> Completion (bool * TokenIterator).
Variable peek : TokenIterator -> Completion (string * TokenIterator).
Variable next : TokenIterator -> Completion (string * TokenIterator).
Variable nextVLQ : TokenIterator -> Completion (Z * TokenIterator).
Variable peekVLQ : TokenIterator -> Completion (option Z * TokenIterator).

(** A call inside a generator: an error ends the generator. *)
Definition call {R A} (c : Completion (R * TokenIterator))
    (k : R -> TokenIterator -> option (Generator A)) : option (Generator A) :=
  match c with
  | Abrupt message => Some (Raise message)
  | Normal (r, iter) => k r iter
  end.

(** [yield item], then the rest of the generator. *)
Definition yield {A} (item : A) (rest : option (Generator A))
    : option (Generator A) :=
  match rest with
  | Some g => Some (Yield item g)
  | None => None
  end.

(** [while (iter.hasNext() && iter.peek() !== ',')
       startItem.variables.push(iter.nextVLQ());] *)
Fixpoint readVariables (fuel : nat) (iter : TokenIterator) (variables : list Z)
    : option (Completion (list Z * TokenIterator)) :=
  match fuel with
  | O => None
  | S fuel =>
      match hasNext iter with
      | Abrupt message => Some (Abrupt message)
      | Normal (false, iter) => Some (Normal (variables, iter))
      | Normal (true, iter) =>
          match peek iter with
          | Abrupt message => Some (Abrupt message)
          | Normal (c, iter) =>
              if String.eqb c "," then Some (Normal (variables, iter))
              else
                match nextVLQ iter with
                | Abrupt message => Some (Abrupt message)
                | Normal (v, iter) => readVariables fuel iter (variables ++ [v])
                end
          end
      end
  end.

(** The [while] loop of [decodeOriginalScopeItems]. *)
Fixpoint decodeOriginalScopeItemsLoop
    (fuel : nat) (iter : TokenIterator) (prevColumn : Z)
    : option (Generator EncodedOriginalScopeItem) :=
  match fuel with
  | O => None
  | S fuel =>
      call (hasNext iter) (fun more iter =>
      if negb more then Some Done else
      call (peek iter) (fun c iter =>
      call (if String.eqb c ","
            then (* Consume ','. *)
                 match next iter with
                 | Abrupt message => Abrupt message
                 | Normal (_, iter) => Normal (tt, iter)
                 end
            else Normal (tt, iter)) (fun _ iter =>
      call (nextVLQ iter) (fun line iter =>
      call (nextVLQ iter) (fun column iter =>
      if (line =? 0) && (column <? prevColumn) then
        Some (Raise ("Malformed original scope encoding: start/end items "
                     ++ "must be ordered w.r.t. source positions"))
      else
      let prevColumn := column in
      call (hasNext iter) (fun more iter =>
      call (if negb more then Normal (true, iter)
            else match peek iter with
                 | Abrupt message => Abrupt message
                 | Normal (c, iter) => Normal (String.eqb c ",", iter)
                 end) (fun isEnd iter =>
      if isEnd : bool then
        yield (EncodedOriginalScopeEnd line column)
          (decodeOriginalScopeItemsLoop fuel iter prevColumn)
      else
      call (nextVLQ iter) (fun kind iter =>
      call (nextVLQ iter) (fun flags iter =>
      call (if negb (Z.land flags 1 =? 0)
            then match nextVLQ iter with
                 | Abrupt message => Abrupt message
                 | Normal (name, iter) => Normal (Some name, iter)
                 end
            else Normal (None, iter)) (fun name iter =>
      match (if negb (Z.land flags 2 =? 0)
             then readVariables fuel iter []
             else Some (Normal ([], iter))) with
      | None => None
      | Some (Abrupt message) => Some (Raise message)
      | Some (Normal (variables, iter)) =>
          yield (EncodedOriginalScopeStart line column kind flags name variables)
            (decodeOriginalScopeItemsLoop fuel iter prevColumn)
      end))))))))))
  end.

Definition decodeOriginalScopeItems (fuel : nat) (encodedOriginalScope : string)
    : option (Generator EncodedOriginalScopeItem) :=
  match newTokenIterator encodedOriginalScope with
  | Abrupt message => Some (Raise message)
  | Normal iter => decodeOriginalScopeItemsLoop fuel iter 0
  end.

(** The [while] loop of [decodeGeneratedRangeItems]; [state] is the
    line and column of the last produced item. *)
Fixpoint decodeGeneratedRangeItemsLoop
    (fuel : nat) (iter : TokenIterator) (line : Z) (state : Position)
    : option (Generator EncodedGeneratedRangeItem) :=
  match fuel with
  | O => None
  | S fuel =>
      call (hasNext iter) (fun more iter =>
      if negb more then Some Done else
      call (peek iter) (fun c iter =>
      if String.eqb c ";" then
        call (next iter) (fun _ iter =>  (* Consume ';'. *)
        decodeGeneratedRangeItemsLoop fuel iter (line + 1) state)
      else
      call (peek iter) (fun c iter =>
      if String.eqb c "," then
        call (next iter) (fun _ iter =>  (* Consume ','. *)
        decodeGeneratedRangeItemsLoop fuel iter line state)
      else
      call (nextVLQ iter) (fun v iter =>
      let column :=
        v + (if line =? SourceMapScopes.line state
             then SourceMapScopes.column state else 0) in
      let state := {| line := line; column := column |} in
      call (peekVLQ iter) (fun peeked iter =>
      match peeked with
      | None =>
          yield (EncodedGeneratedRangeEnd line column)
            (decodeGeneratedRangeItemsLoop fuel iter line state)
      | Some _ =>
          call (nextVLQ iter) (fun flags iter =>
          yield (EncodedGeneratedRangeStart line column flags)
            (decodeGeneratedRangeItemsLoop fuel iter line state))
      end)))))
  end.

Definition decodeGeneratedRangeItems (fuel : nat) (encodedGeneratedRange : string)
    : option (Generator EncodedGeneratedRangeItem) :=
  match newTokenIterator encodedGeneratedRange with
  | Abrupt message => Some (Raise message)
  | Normal iter =>
      decodeGeneratedRangeItemsLoop fuel iter 0 {| line := 0; column := 0 |}
  end.

End Items.

End SourceMapScopes.

(** ** Nested item sequences *)

(** The shape of a properly nested item sequence, used to state what the
    decoders of SourceMapScopes.ts accept: a start item, the sequences of
    the children, an end item. *)
Module Nested.

Import SourceMapScopes.

Local Open Scope Z_scope.

(** [items] in front of what the generator does next. *)
Fixpoint prepend {A} (items : list A) (rest : Generator A) : Generator A :=
  match items with
  | [] => rest
  | item :: items => Yield item (prepend items rest)
  end.

(** The number of items a generator yields. *)
Fixpoint size {A} (g : Generator A) : nat :=
  match g with
  | Yield _ rest => S (size rest)
  | _ => O
  end.

(** An original scope as it is encoded: the fields of its start item, its
    children, the fields of its end item. *)
Inductive ScopeTree :=
| ScopeNode
    (line column kind flags : Z) (name : option Z) (variables : list Z)
    (children : list ScopeTree) (endLine endColumn : Z).

Fixpoint flatten (t : ScopeTree) : list EncodedOriginalScopeItem :=
  match t with
  | ScopeNode line column kind flags name variables children endLine endColumn =>
      EncodedOriginalScopeStart line column kind flags name variables
      :: flat_map flatten children
      ++ [EncodedOriginalScopeEnd endLine endColumn]
  end.

(** The scope that a tree stands for when its start item comes at line
    [line] (lines are relative to the item before), with the line of its end
    item; [None] when a kind is none of 1, 2, 3, 4. *)
Fixpoint resolve (names : list string) (line : Z) (t : ScopeTree)
    : option (OriginalScope * Z) :=
  match t with
  | ScopeNode l column kind flags name variables children endLine endColumn =>
      let line := line + l in
      match kindOf kind with
      | None => None
      | Some kind =>
          match
            (fix resolveAll (ts : list ScopeTree) (line : Z)
               : option (list OriginalScope * Z) :=
               match ts with
               | [] => Some ([], line)
               | t :: ts =>
                   match resolve names line t with
                   | None => None
                   | Some (s, line) =>
                       match resolveAll ts line with
                       | None => None
                       | Some (ss, line) => Some (s :: ss, line)
                       end
                   end
               end) children line
          with
          | None => None
          | Some (children, line') =>
              Some (Build_OriginalScope
                      {| line := line; column := column |}
                      {| line := line' + endLine; column := endColumn |}
                      kind (resolveName name names)
                      (map (fun idx => at_ names idx) variables) children,
                    line' + endLine)
          end
      end
  end.

Fixpoint resolveAll (names : list string) (ts : list ScopeTree) (line : Z)
    : option (list OriginalScope * Z) :=
  match ts with
  | [] => Some ([], line)
  | t :: ts =>
      match resolve names line t with
      | None => None
      | Some (s, line) =>
          match resolveAll names ts line with
          | None => None
          | Some (ss, line) => Some (s :: ss, line)
          end
      end
  end.

(** A generated range as it is encoded. *)
Inductive RangeTree :=
| RangeNode
    (line column flags : Z) (children : list RangeTree)
    (endLine endColumn : Z).

Fixpoint flattenRange (t : RangeTree) : list EncodedGeneratedRangeItem :=
  match t with
  | RangeNode line column flags children endLine endColumn =>
      EncodedGeneratedRangeStart line column flags
      :: flat_map flattenRange children
      ++ [EncodedGeneratedRangeEnd endLine endColumn]
  end.

(** The range that a tree stands for: lines are absolute here. *)
Fixpoint resolveRange (t : RangeTree) : GeneratedRange :=
  match t with
  | RangeNode line column flags children endLine endColumn =>
      Build_GeneratedRange
        {| line := line; column := column |}
        {| line := endLine; column := endColumn |}
        None None [] (map resolveRange children)
  end.

(** [scope.children.push] for each of [scopes] in turn. *)
Definition addChildren (scope : OriginalScope) (scopes : list OriginalScope)
    : OriginalScope :=
  match scope with
  | Build_OriginalScope start end_ kind name variables children =>
      Build_OriginalScope start end_ kind name variables (children ++ scopes)
  end.

(** [range.children.push] for each of [ranges] in turn. *)
Definition addRanges (range : GeneratedRange) (ranges : list GeneratedRange)
    : GeneratedRange :=
  match range with
  | Build_GeneratedRange start end_ originalScope callsite values children =>
      Build_GeneratedRange start end_ originalScope callsite values
        (children ++ ranges)
  end.

(** Positions in source order. *)
Definition before (p q : Position) : Prop :=
  line p < line q \/ (line p = line q /\ column p <= column q).

Definition scopeStart (s : OriginalScope) : Position :=
  match s with Build_OriginalScope start _ _ _ _ _ => start end.

Definition scopeEnd (s : OriginalScope) : Position :=
  match s with Build_OriginalScope _ end_ _ _ _ _ => end_ end.

Definition scopeChildren (s : OriginalScope) : list OriginalScope :=
  match s with Build_OriginalScope _ _ _ _ _ children => children end.

Definition rangeStart (r : GeneratedRange) : Position :=
  match r with Build_GeneratedRange start _ _ _ _ _ => start end.

Definition rangeEnd (r : GeneratedRange) : Position :=
  match r with Build_GeneratedRange _ end_ _ _ _ _ => end_ end.

Definition rangeChildren (r : GeneratedRange) : list GeneratedRange :=
  match r with Build_GeneratedRange _ _ _ _ _ children => children end.

(** The scopes [scopes] follow one another in source order between the
    positions [lo] and [hi]. *)
Fixpoint chained (lo hi : Position) (scopes : list OriginalScope) : Prop :=
  match scopes with
  | [] => before lo hi
  | s :: scopes => before lo (scopeStart s) /\ chained (scopeEnd s) hi scopes
  end.

(** A scope whose children, and theirs, lie inside it in source order. *)
Inductive wellNested : OriginalScope -> Prop :=
| wellNested_intro start end_ kind name variables children :
    chained start end_ children ->
    Forall wellNested children ->
    wellNested (Build_OriginalScope start end_ kind name variables children).

(** The same for generated ranges, by line. *)
Fixpoint chainedLines (lo hi : Z) (ranges : list GeneratedRange) : Prop :=
  match ranges with
  | [] => lo <= hi
  | r :: ranges =>
      lo <= line (rangeStart r) /\ chainedLines (line (rangeEnd r)) hi ranges
  end.

Inductive linesNested : GeneratedRange -> Prop :=
| linesNested_intro start end_ originalScope callsite values children :
    chainedLines (line start) (line end_) children ->
    Forall linesNested children ->
    linesNested
      (Build_GeneratedRange start end_ originalScope callsite values children).

(** The items that a generator yields are in source order: no line goes
    back, and on the same line no column goes back. *)
Fixpoint ordered (prevColumn : Z) (g : Generator EncodedOriginalScopeItem)
    : Prop :=
  match g with
  | Yield item rest =>
      0 <= itemLine item
      /\ (itemLine item = 0 -> prevColumn <= itemColumn item)
      /\ ordered (itemColumn item) rest
  | _ => True
  end.

(** The part of [ordered] that [decodeOriginalScopeItems] checks. *)
Fixpoint columnsOrdered (prevColumn : Z)
    (g : Generator EncodedOriginalScopeItem) : Prop :=
  match g with
  | Yield item rest =>
      (itemLine item = 0 -> prevColumn <= itemColumn item)
      /\ columnsOrdered (itemColumn item) rest
  | _ => True
  end.

(** A start item has a name exactly when bit 0 of its flags is set, and
    variables only when bit 1 is. *)
Definition flagsRespected (item : EncodedOriginalScopeItem) : Prop :=
  match item with
  | EncodedOriginalScopeStart _ _ _ flags name variables =>
      (name = None <-> Z.land flags 1 = 0)
      /\ (Z.land flags 2 = 0 -> variables = [])
  | EncodedOriginalScopeEnd _ _ => True
  end.

Fixpoint allItems {A} (P : A -> Prop) (g : Generator A) : Prop :=
  match g with
  | Yield item rest => P item /\ allItems P rest
  | _ => True
  end.

(** The lines of the items of a range generator never go back. *)
Fixpoint linesMonotone (prevLine : Z) (g : Generator EncodedGeneratedRangeItem)
    : Prop :=
  match g with
  | Yield item rest =>
      prevLine <= rangeItemLine item
      /\ linesMonotone (rangeItemLine item) rest
  | _ => True
  end.

(** A token iterator over an input that is already cut into tokens, for
    the examples: [','], [';'] and the numbers that [nextVLQ] returns. *)
Inductive Token := Comma | Semicolon | Number (n : Z).

Definition tokenChar (tokens : list Token) : string :=
  match tokens with
  | Comma :: _ => ","
  | Semicolon :: _ => ";"
  | Number _ :: _ => "A"
  | [] => ""
  end.

Definition tokensHasNext (tokens : list Token)
    : Completion (bool * list Token) :=
  Normal (match tokens with [] => false | _ => true end, tokens).

Definition tokensPeek (tokens : list Token)
    : Completion (string * list Token) :=
  Normal (tokenChar tokens, tokens).

Definition tokensNext (tokens : list Token)
    : Completion (string * list Token) :=
  Normal (tokenChar tokens, tl tokens).

Definition tokensNextVLQ (tokens : list Token) : Completion (Z * list Token) :=
  match tokens with
  | Number n :: rest => Normal (n, rest)
  | _ => Abrupt "no number"
  end.

Definition tokensPeekVLQ (tokens : list Token)
    : Completion (option Z * list Token) :=
  Normal (match tokens with Number n :: _ => Some n | _ => None end, tokens).

(** The tokens of the example scope below. *)
Definition exampleTokens : list Token :=
  [Number 2; Number 0; Number 2; Number 3; Number 0; Number 1; Comma;
   Number 2; Number 4; Number 4; Number 0; Comma;
   Number 2; Number 5; Comma;
   Number 3; Number 1].

(** The tokens of the example range below: lines are counted by [';'],
    columns are relative on a line. *)
Definition exampleRangeTokens : list Token :=
  [Number 0; Number 0; Semicolon; Semicolon;
   Number 4; Number 0; Comma; Number 16; Semicolon; Semicolon; Semicolon;
   Number 1].

(** A function scope at lines 2 to 9 that holds a block at lines 4 to 6;
    the names of the function and of its variable are entries 0 and 1 of
    the name table. *)
Definition exampleTree : ScopeTree :=
  ScopeNode 2 0 2 3 (Some 0) [1]
    [ScopeNode 2 4 4 0 None [] [] 2 5] 3 1.

Definition exampleNames : list string := ["f"%string; "x"%string].

Definition exampleScope : OriginalScope :=
  Build_OriginalScope
    {| line := 2; column := 0 |} {| line := 9; column := 1 |}
    function (Some "f"%string) [Some "x"%string]
    [Build_OriginalScope
       {| line := 4; column := 4 |} {| line := 6; column := 5 |}
       block None [] []].

(** A generator that yields the items of the example, then a second
    top-level scope of unknown kind, whatever the input string. *)
Definition exampleItems (_ : string) : Generator EncodedOriginalScopeItem :=
  prepend (flatten exampleTree)
    (Yield (EncodedOriginalScopeStart 1 0 7 0 None []) Done).

(** A range over lines 0 to 5 that holds a range on line 2. *)
Definition exampleRangeTree : RangeTree :=
  RangeNode 0 0 0 [RangeNode 2 4 0 [] 2 20] 5 1.

Definition exampleRange : GeneratedRange :=
  Build_GeneratedRange
    {| line := 0; column := 0 |} {| line := 5; column := 1 |} None None []
    [Build_GeneratedRange
       {| line := 2; column := 4 |} {| line := 2; column := 20 |}
       None None [] []].

End Nested.

(** * Properties *)

(** ** Order facts on binary64 values *)

Section FloatOrder.

Local Open Scope float_scope.

Lemma SFcompare_antisym (x y : spec_float) :
  SFcompare y x = option_map CompOpp (SFcompare x y).
Proof.
  destruct x as [sx|sx| |sx mx ex], y as [sy|sy| |sy my ey]; simpl;
    try reflexivity;
    try (destruct sx; reflexivity);
    try (destruct sy; reflexivity);
    try (destruct sx, sy; reflexivity).
  change (PosDef.Pos.compare_cont Eq my mx) with (Pos.compare my mx).
  change (PosDef.Pos.compare_cont Eq mx my) with (Pos.compare mx my).
  rewrite (Z.compare_antisym ex ey), (Pos.compare_antisym mx my).
  destruct sx, sy; simpl; try reflexivity;
    destruct (ex ?= ey)%Z; simpl; try reflexivity;
    destruct (mx ?= my)%positive; reflexivity.
Qed.

Lemma SFcompare_refl (x : spec_float) :
  x <> S754_nan -> SFcompare x x = Some Eq.
Proof.
  destruct x as [s|s| |s m e]; simpl; intros H; try congruence.
  - destruct s; reflexivity.
  - change (PosDef.Pos.compare_cont Eq m m) with (Pos.compare m m).
    rewrite Z.compare_refl, Pos.compare_refl. destruct s; reflexivity.
Qed.

Lemma SFleb_trans (x y z : spec_float) :
  SFleb x y = true -> SFleb y z = true -> SFleb x z = true.
Proof.
  unfold SFleb.
  destruct x as [sx|sx| |sx mx ex], y as [sy|sy| |sy my ey],
           z as [sz|sz| |sz mz ez]; simpl;
    try discriminate; try reflexivity;
    try (destruct sx; simpl; try discriminate; try reflexivity);
    try (destruct sy; simpl; try discriminate; try reflexivity);
    try (destruct sz; simpl; try discriminate; try reflexivity);
    change (PosDef.Pos.compare_cont Eq mx my) with (Pos.compare mx my);
    change (PosDef.Pos.compare_cont Eq my mz) with (Pos.compare my mz);
    change (PosDef.Pos.compare_cont Eq mx mz) with (Pos.compare mx mz);
    destruct (Z.compare_spec ex ey), (Z.compare_spec ey ez),
             (Z.compare_spec ex ez); simpl;
    try discriminate; try reflexivity; try lia;
    destruct (Pos.compare_spec mx my), (Pos.compare_spec my mz),
             (Pos.compare_spec mx mz); simpl;
    try discriminate; try reflexivity; try lia.
Qed.

Lemma is_nan_spec (x : float) : is_nan x = true <-> Prim2SF x = S754_nan.
Proof.
  unfold is_nan. rewrite FloatAxioms.eqb_spec. unfold SFeqb.
  split.
  - destruct (Prim2SF x) as [s|s| |s m e] eqn:E; try reflexivity;
      rewrite SFcompare_refl by discriminate; discriminate.
  - intros ->. reflexivity.
Qed.

Lemma is_nan_false (x : float) : is_nan x = false <-> Prim2SF x <> S754_nan.
Proof.
  pose proof (is_nan_spec x) as [H1 H2].
  destruct (is_nan x); split; intros H; try congruence.
  - exfalso. apply H, H1. reflexivity.
  - intros E. specialize (H2 E). discriminate.
Qed.

Lemma leb_refl (x : float) : is_nan x = false -> (x <=? x) = true.
Proof.
  intros H. rewrite FloatAxioms.leb_spec. unfold SFleb.
  rewrite SFcompare_refl; [reflexivity | now apply is_nan_false].
Qed.

Lemma leb_trans (x y z : float) :
  (x <=? y) = true -> (y <=? z) = true -> (x <=? z) = true.
Proof. rewrite !FloatAxioms.leb_spec. apply SFleb_trans. Qed.

Lemma ltb_leb (x y : float) : (x <? y) = true -> (x <=? y) = true.
Proof.
  rewrite FloatAxioms.ltb_spec, FloatAxioms.leb_spec. unfold SFltb, SFleb.
  destruct (SFcompare _ _) as [[]|]; congruence.
Qed.

Lemma leb_not_nan (x y : float) :
  (x <=? y) = true -> is_nan x = false /\ is_nan y = false.
Proof.
  rewrite FloatAxioms.leb_spec, !is_nan_false. unfold SFleb.
  destruct (Prim2SF x), (Prim2SF y); simpl; try discriminate;
    split; discriminate.
Qed.

(** Without [NaN] the order is total. *)
Lemma ltb_false_leb (x y : float) :
  is_nan x = false -> is_nan y = false ->
  (x <? y) = false -> (y <=? x) = true.
Proof.
  rewrite !is_nan_false, FloatAxioms.ltb_spec, FloatAxioms.leb_spec. unfold SFltb, SFleb.
  intros Hx Hy. rewrite (SFcompare_antisym (Prim2SF x) (Prim2SF y)).
  destruct (SFcompare (Prim2SF x) (Prim2SF y)) as [[]|] eqn:E; simpl;
    try congruence.
  destruct (Prim2SF x), (Prim2SF y); simpl in E; congruence.
Qed.

End FloatOrder.

(** ** JavaScript operators *)

Section Operators.

Local Open Scope float_scope.

Lemma eqb_leb (x y : float) : (x =? y) = true -> (x <=? y) = true.
Proof.
  rewrite FloatAxioms.eqb_spec, FloatAxioms.leb_spec. unfold SFeqb, SFleb.
  destruct (SFcompare _ _) as [[]|]; congruence.
Qed.

Lemma or_zero_not_nan (x : option float) : is_nan (JS.or_zero x) = false.
Proof.
  destruct x as [v|]; simpl; [|reflexivity].
  unfold JS.truthy. destruct (is_nan v) eqn:E; simpl; [reflexivity|].
  destruct (is_zero v); simpl; [reflexivity | exact E].
Qed.

Lemma or_zero_cases (x : option float) :
  JS.or_zero x = 0 \/ x = Some (JS.or_zero x).
Proof.
  destruct x as [v|]; simpl; [|now left].
  destruct (JS.truthy v); [now right | now left].
Qed.

(** [max || 0] on a running maximum that is at least 0. *)
Lemma or_zero_running (acc : float) :
  (0 <=? acc) = true ->
  (0 <=? JS.or_zero (Some acc)) = true
  /\ (acc <=? JS.or_zero (Some acc)) = true
  /\ (JS.or_zero (Some acc) = acc \/ JS.or_zero (Some acc) = 0).
Proof.
  intros H. destruct (leb_not_nan _ _ H) as [_ Hn].
  simpl. unfold JS.truthy. rewrite Hn. simpl.
  destruct (is_zero acc) eqn:Z; simpl.
  - repeat split; [now apply eqb_leb | now right].
  - repeat split; [exact H | now apply leb_refl | now left].
Qed.

Lemma Math_max_spec (a b : float) :
  is_nan a = false -> is_nan b = false ->
  (JS.Math_max a b = a \/ JS.Math_max a b = b)
  /\ (a <=? JS.Math_max a b) = true
  /\ (b <=? JS.Math_max a b) = true.
Proof.
  intros Ha Hb. unfold JS.Math_max. rewrite Ha, Hb. simpl.
  destruct (a <? b) eqn:Hab.
  - repeat split; [now right | now apply ltb_leb | now apply leb_refl].
  - destruct (b <? a) eqn:Hba.
    + repeat split; [now left | now apply leb_refl | now apply ltb_leb].
    + pose proof (ltb_false_leb _ _ Ha Hb Hab) as Hle1.
      pose proof (ltb_false_leb _ _ Hb Ha Hba) as Hle2.
      destruct (Prim2SF a) as [[]| | |];
        repeat split; auto using leb_refl.
Qed.

Lemma Math_max_nan (a b : float) :
  is_nan a = true \/ is_nan b = true -> JS.Math_max a b = nan.
Proof.
  unfold JS.Math_max. intros [-> | ->]; [reflexivity|].
  now rewrite orb_true_r.
Qed.

End Operators.

(** ** getLastLongTaskEndTime *)

Section LastLongTask.

Local Open Scope float_scope.

Import Interactive.

Lemma reducer_step (acc : float) (x : option float) :
  (0 <=? acc) = true ->
  (0 <=? reducer acc x) = true
  /\ (acc <=? reducer acc x) = true
  /\ (JS.or_zero x <=? reducer acc x) = true
  /\ (reducer acc x = acc \/ reducer acc x = 0 \/ x = Some (reducer acc x)).
Proof.
  intros H. unfold reducer.
  destruct (or_zero_running _ H) as (H0 & H1 & H2).
  destruct (leb_not_nan _ _ H0) as [_ Ha].
  destruct (Math_max_spec _ _ Ha (or_zero_not_nan x)) as (Hm & Hl & Hr).
  repeat split.
  - eapply leb_trans; eassumption.
  - eapply leb_trans; eassumption.
  - exact Hr.
  - destruct Hm as [-> | ->].
    + destruct H2 as [-> | ->]; auto.
    + destruct (or_zero_cases x) as [-> | E]; auto.
Qed.

Lemma reduce_spec (l : list (option float)) :
  forall acc, (0 <=? acc) = true ->
  let r := fold_left reducer l acc in
  (0 <=? r) = true
  /\ (acc <=? r) = true
  /\ (forall x, In x l -> (JS.or_zero x <=? r) = true)
  /\ (r = acc \/ r = 0 \/ In (Some r) l).
Proof.
  induction l as [|x l IH]; intros acc H; simpl.
  - destruct (leb_not_nan _ _ H) as [_ Hn].
    repeat split; auto using leb_refl; intros x [].
  - destruct (reducer_step _ x H) as (H0 & H1 & H2 & H3).
    destruct (IH _ H0) as (I0 & I1 & I2 & I3).
    repeat split.
    + exact I0.
    + eapply leb_trans; eassumption.
    + intros y [<- | Hy]; [eapply leb_trans; eassumption | now apply I2].
    + destruct I3 as [E | [E | E]]; auto.
      rewrite E. destruct H3 as [E' | [E' | E']]; auto.
Qed.

Lemma filter_filter_implied {A} (f g : A -> bool) (l : list A) :
  (forall x, f x = true -> g x = true) ->
  filter f (filter g l) = filter f l.
Proof.
  intros Hfg. induction l as [|x l IH]; simpl; [reflexivity|].
  destruct (g x) eqn:G; simpl.
  - destruct (f x); now rewrite IH.
  - destruct (f x) eqn:F; [|exact IH].
    apply Hfg in F. congruence.
Qed.

Lemma isLongTask_spec (d : float) (node : Node) (t : NodeTiming.t) :
  isLongTask d (node, t) = true <->
  type node = CPU /\ JS.gt (NodeTiming.duration t) d = true.
Proof.
  unfold isLongTask. destruct (type node); simpl; intuition congruence.
Qed.

Lemma or_zero_idem (x : option float) :
  JS.or_zero (Some (JS.or_zero x)) = JS.or_zero x.
Proof.
  destruct x as [v|]; [|reflexivity].
  simpl. destruct (JS.truthy v) eqn:T; [now rewrite T | reflexivity].
Qed.

Lemma fold_reducer_or_zero (l : list (option float)) :
  forall acc,
  fold_left reducer (map (fun x => Some (JS.or_zero x)) l) acc
  = fold_left reducer l acc.
Proof.
  induction l as [|x l IH]; intros acc; simpl; [reflexivity|].
  rewrite IH. unfold reducer at 2 4. now rewrite or_zero_idem.
Qed.

Lemma filter_endTimeOrZero (d : float) (l : NodeTimings) :
  map (fun entry : Node * NodeTiming.t => NodeTiming.endTime (snd entry))
      (filter (isLongTask d) (map Examples.endTimeOrZero l))
  = map (fun x => Some (JS.or_zero x))
      (map (fun entry : Node * NodeTiming.t => NodeTiming.endTime (snd entry))
           (filter (isLongTask d) l)).
Proof.
  induction l as [|[n t] l IH]; simpl; [reflexivity|].
  destruct (type n); simpl; [exact IH|].
  destruct (JS.gt (NodeTiming.duration t) d); simpl; now rewrite IH.
Qed.

(** C10: [getLastLongTaskEndTime] is a total function whose result, for every
    node-timings map and every threshold (given or left out), is a number
    (not NaN) that is at least 0; an [endTime] that is [undefined] (or
    otherwise falsy) counts as 0: replacing every [endTime] by
    [endTime || 0] leaves the result unchanged. *)
Theorem getLastLongTaskEndTime_nonnegative
    (nodeTimings : NodeTimings) (duration : option float) :
  let r := getLastLongTaskEndTime nodeTimings duration in
  is_nan r = false
  /\ (0 <=? r) = true
  /\ getLastLongTaskEndTime (map Examples.endTimeOrZero nodeTimings) duration = r.
Proof.
  unfold getLastLongTaskEndTime.
  set (d := match duration with Some d => d | None => 50 end).
  set (l := map _ (filter (isLongTask d) nodeTimings)).
  assert (H0 : (0 <=? 0) = true) by reflexivity.
  destruct (reduce_spec l 0 H0) as (Hr & _).
  cbv zeta. repeat split.
  - now destruct (leb_not_nan _ _ Hr).
  - exact Hr.
  - rewrite filter_endTimeOrZero. apply fold_reducer_or_zero.
Qed.

(** C4 (amended): with the default threshold the result [r] is the largest
    of 0 and the end times ([endTime || 0]) of the CPU-node timings whose
    duration is strictly greater than 50: it is at least 0 and at least each
    of them, and it is 0 or the [endTime] of one of them; it is 0 when no
    CPU-node timing has a duration above 50; and dropping every timing of a
    network node changes nothing. *)
Theorem getLastLongTaskEndTime_default_max (nodeTimings : NodeTimings) :
  let r := getLastLongTaskEndTime nodeTimings None in
  (0 <=? r) = true
  /\ (forall node t,
        In (node, t) nodeTimings -> type node = CPU ->
        JS.gt (NodeTiming.duration t) 50 = true ->
        (JS.or_zero (NodeTiming.endTime t) <=? r) = true)
  /\ (r = 0
      \/ exists node t,
           In (node, t) nodeTimings /\ type node = CPU
           /\ JS.gt (NodeTiming.duration t) 50 = true
           /\ NodeTiming.endTime t = Some r)
  /\ ((forall node t,
         In (node, t) nodeTimings -> type node = CPU ->
         JS.gt (NodeTiming.duration t) 50 = false) -> r = 0)
  /\ getLastLongTaskEndTime
       (filter (fun entry => NodeType_eqb (type (fst entry)) CPU) nodeTimings)
       None = r.
Proof.
  unfold getLastLongTaskEndTime.
  set (l := map _ (filter (isLongTask 50) nodeTimings)).
  assert (H0 : (0 <=? 0) = true) by reflexivity.
  destruct (reduce_spec l 0 H0) as (Hr & _ & Hub & Hin).
  cbv zeta.
  assert (Hex : fold_left reducer l 0 = 0
                \/ exists node t,
                     In (node, t) nodeTimings /\ type node = CPU
                     /\ JS.gt (NodeTiming.duration t) 50 = true
                     /\ NodeTiming.endTime t = Some (fold_left reducer l 0)).
  { destruct Hin as [E | [E | E]]; auto.
    right. unfold l in E at 1. apply in_map_iff in E.
    destruct E as ([node t] & Et & Ein). apply filter_In in Ein.
    destruct Ein as [Ein Hlong]. apply isLongTask_spec in Hlong.
    exists node, t. simpl in Et. tauto. }
  repeat split.
  - exact Hr.
  - intros node t Hin' Hcpu Hgt. apply Hub. unfold l.
    apply in_map_iff. exists (node, t). split; [reflexivity|].
    apply filter_In. split; [exact Hin'|]. apply isLongTask_spec. tauto.
  - exact Hex.
  - intros Hnone. destruct Hex as [E | (node & t & Hin' & Hcpu & Hgt & _)];
      [exact E|]. rewrite (Hnone node t Hin' Hcpu) in Hgt. discriminate.
  - rewrite filter_filter_implied; [reflexivity|].
    intros [node t] Hlong. apply isLongTask_spec in Hlong. simpl.
    destruct Hlong as [-> _]. reflexivity.
Qed.

(** C4 (counterexample): the only timing is that of a CPU node, its duration
    60 is above 50 and its end time is -5, so the maximum end time over the
    long tasks is -5; the function returns 0, which is not -5. *)
Lemma getLastLongTaskEndTime_negative_endTime :
  Examples.negativeEndTimings = [Examples.negativeEndTask]
  /\ type (fst Examples.negativeEndTask) = CPU
  /\ JS.gt (NodeTiming.duration (snd Examples.negativeEndTask)) 50 = true
  /\ NodeTiming.endTime (snd Examples.negativeEndTask) = Some (-5)
  /\ getLastLongTaskEndTime Examples.negativeEndTimings None = 0
  /\ (0 =? -5) = false.
Proof. repeat split. Qed.

End LastLongTask.

(** ** Dependency paths and the bypass of a node *)

Section Paths.

Variable G : Graph.

Lemma path_trans (x y z : string) : path G x y -> path G y z -> path G x z.
Proof.
  induction 1 as [|x y w Hxy Hyw IH]; intros Hz; [exact Hz|].
  eapply path_step; [exact Hxy | now apply IH].
Qed.

Lemma path1_path (x y : string) : path1 G x y -> path G x y.
Proof. intros [x' y' z Hxy Hyz]. eapply path_step; eassumption. Qed.

Lemma path_cases (x y : string) : path G x y -> x = y \/ path1 G x y.
Proof.
  intros [|x' y' z Hxy Hyz]; [now left | right].
  eapply path1_step; eassumption.
Qed.

Lemma path_path1 (x y z : string) : path G x y -> path1 G y z -> path1 G x z.
Proof.
  induction 1 as [|x y w Hxy Hyw IH]; intros Hz; [exact Hz|].
  eapply path1_step; [exact Hxy|]. apply path1_path. now apply IH.
Qed.

Lemma edge_path1 (x y : string) : edge G x y -> path1 G x y.
Proof. intros H. eapply path1_step; [exact H | apply path_refl]. Qed.

Lemma In_dependentsOf (b y : string) : In y (dependentsOf G b) <-> edge G b y.
Proof.
  unfold dependentsOf, edge. rewrite in_flat_map. split.
  - intros (gn & Hin & Hy). apply filter_In in Hin. destruct Hin as [Hin Hid].
    apply String.eqb_eq in Hid. eauto.
  - intros (gn & Hin & Hid & Hy). exists gn. split; [|exact Hy].
    apply filter_In. split; [exact Hin|]. now apply String.eqb_eq.
Qed.

Lemma edgeb_spec (x y : string) : edgeb G x y = true <-> edge G x y.
Proof.
  unfold edgeb, edge, hasId. rewrite existsb_exists. split.
  - intros (gn & Hin & H). apply andb_true_iff in H. destruct H as [Hid Hy].
    apply String.eqb_eq in Hid. apply existsb_exists in Hy.
    destruct Hy as (y' & Hy' & E). apply String.eqb_eq in E. subst y'. eauto.
  - intros (gn & Hin & Hid & Hy). exists gn. split; [exact Hin|].
    apply andb_true_iff. split; [now apply String.eqb_eq|].
    apply existsb_exists. exists y. split; [exact Hy | apply String.eqb_refl].
Qed.

Lemma noDanglingEdge_spec :
  noDanglingEdge G = true <-> (forall x y, edge G x y -> In y (ids G)).
Proof.
  unfold noDanglingEdge. rewrite forallb_forall. split.
  - intros H x y (gn & Hin & _ & Hy). specialize (H gn Hin).
    rewrite forallb_forall in H. specialize (H y Hy).
    apply existsb_exists in H. destruct H as (i & Hi & E).
    apply String.eqb_eq in E. now subst.
  - intros H gn Hin. apply forallb_forall. intros y Hy.
    apply existsb_exists. exists y. split; [|apply String.eqb_refl].
    apply (H (nodeId gn) y). exists gn. auto.
Qed.

End Paths.

Section Bypass.

Variable b : string.
Variable G : Graph.

Lemma map_node_bypass : map node (bypass b G) = map node G.
Proof. unfold bypass. rewrite map_map. reflexivity. Qed.

Lemma ids_bypass : ids (bypass b G) = ids G.
Proof. unfold ids, bypass. rewrite map_map. reflexivity. Qed.

Lemma edge_bypass_iff (x y : string) :
  edge (bypass b G) x y <->
  y <> b /\ (edge G x y \/ (edge G x b /\ edge G b y)).
Proof.
  unfold bypass. split.
  - intros (gn' & Hin & Hid & Hy). apply in_map_iff in Hin.
    destruct Hin as (gn & <- & Hin). simpl in Hy. unfold nodeId in Hid.
    simpl in Hid. apply nodup_In in Hy. apply in_remove in Hy.
    destruct Hy as [Hy Hne]. split; [exact Hne|].
    destruct (existsb (String.eqb b) (dependents gn)) eqn:Hb.
    + apply in_app_or in Hy. destruct Hy as [Hy | Hy].
      * left. exists gn. auto.
      * right. apply In_dependentsOf in Hy. split; [|exact Hy].
        apply existsb_exists in Hb. destruct Hb as (b' & Hb' & E).
        apply String.eqb_eq in E. subst b'. exists gn. auto.
    + left. exists gn. auto.
  - intros (Hne & H).
    assert (Hgen : forall gn, In gn G -> nodeId gn = x ->
              In y (if existsb (String.eqb b) (dependents gn)
                    then dependents gn ++ dependentsOf G b
                    else dependents gn) ->
              edge (map (fun gn =>
                      {| node := node gn;
                         dependents :=
                           nodup string_dec
                             (remove string_dec b
                                (if existsb (String.eqb b) (dependents gn)
                                 then dependents gn ++ dependentsOf G b
                                 else dependents gn)) |}) G) x y).
    { intros gn Hin Hid Hy.
      eexists. split; [apply in_map; exact Hin|]. split; [exact Hid|].
      simpl. apply nodup_In. apply in_in_remove; assumption. }
    destruct H as [(gn & Hin & Hid & Hy) | [(gn & Hin & Hid & Hb) Hby]].
    + apply (Hgen gn Hin Hid).
      destruct (existsb _ _); [apply in_or_app; now left | exact Hy].
    + apply (Hgen gn Hin Hid).
      assert (E : existsb (String.eqb b) (dependents gn) = true).
      { apply existsb_exists. exists b. split; [exact Hb|apply String.eqb_refl]. }
      rewrite E. apply in_or_app. right. now apply In_dependentsOf.
Qed.

Lemma edge_bypass_keep (x y : string) :
  edge G x y -> y <> b -> edge (bypass b G) x y.
Proof. intros H Hy. apply edge_bypass_iff. auto. Qed.

Lemma edge_bypass_skip (x y : string) :
  edge G x b -> edge G b y -> y <> b -> edge (bypass b G) x y.
Proof. intros H1 H2 Hy. apply edge_bypass_iff. auto. Qed.

Lemma edge_bypass_target (x y : string) : edge (bypass b G) x y -> y <> b.
Proof. intros H. now apply edge_bypass_iff in H. Qed.

(** A path that leaves [b] aside at its end survives the bypass, shortened
    where it went through [b]. *)
Lemma path_bypass_aux (u v : string) :
  path G u v -> v <> b ->
  (u <> b -> path (bypass b G) u v)
  /\ (u = b -> forall a, edge G a b -> path1 (bypass b G) a v).
Proof.
  induction 1 as [x | x y z Hxy Hyz IH]; intros Hv.
  - split; [intros _; apply path_refl | intros E; now subst].
  - destruct (IH Hv) as [IH1 IH2]. destruct (string_dec y b) as [Ey | Ny].
    + subst y. split.
      * intros Hx. apply path1_path. now apply (IH2 eq_refl x).
      * intros -> a Ha. now apply (IH2 eq_refl a).
    + split.
      * intros Hx. eapply path_step; [|exact (IH1 Ny)].
        now apply edge_bypass_keep.
      * intros -> a Ha. eapply path1_step; [|exact (IH1 Ny)].
        now apply edge_bypass_skip.
Qed.

Lemma path_bypass (u v : string) :
  path G u v -> u <> b -> v <> b -> path (bypass b G) u v.
Proof. intros H Hu Hv. now apply (path_bypass_aux _ _ H Hv). Qed.

Lemma path1_bypass (u v : string) :
  path1 G u v -> u <> b -> v <> b -> path1 (bypass b G) u v.
Proof.
  intros [x y z Hxy Hyz] Hu Hv.
  destruct (path_bypass_aux _ _ Hyz Hv) as [H1 H2].
  destruct (string_dec y b) as [-> | Ny].
  - now apply (H2 eq_refl x).
  - eapply path1_step; [|exact (H1 Ny)]. now apply edge_bypass_keep.
Qed.

(** The bypass adds no connection: its edges are paths of the graph. *)
Lemma edge_bypass_path1 (x y : string) :
  edge (bypass b G) x y -> path1 G x y.
Proof.
  intros H. apply edge_bypass_iff in H. destruct H as [_ [H | [H1 H2]]].
  - now apply edge_path1.
  - eapply path1_step; [exact H1|]. apply path1_path. now apply edge_path1.
Qed.

Lemma path_bypass_inv (x y : string) : path (bypass b G) x y -> path G x y.
Proof.
  induction 1 as [|x y z Hxy _ IH]; [apply path_refl|].
  eapply path_trans; [|exact IH]. apply path1_path. now apply edge_bypass_path1.
Qed.

Lemma path1_bypass_inv (x y : string) : path1 (bypass b G) x y -> path1 G x y.
Proof.
  intros [x' y' z Hxy Hyz]. apply edge_bypass_path1 in Hxy.
  destruct Hxy as [x'' w y'' Hxw Hwy]. eapply path1_step; [exact Hxw|].
  eapply path_trans; [exact Hwy | now apply path_bypass_inv].
Qed.

End Bypass.

(** ** Cycle detection *)

Section CycleCheck.

Lemma hasCycleFrom_sound (order : list string) :
  forall G, hasCycleFrom order G = true -> exists x, path1 G x x.
Proof.
  induction order as [|b rest IH]; simpl; intros G H; [discriminate|].
  destruct (edgeb G b b) eqn:E.
  - exists b. apply edge_path1. now apply edgeb_spec.
  - destruct (IH _ H) as [x Hx]. exists x. eapply path1_bypass_inv. exact Hx.
Qed.

Lemma hasCycleFrom_complete (order : list string) :
  forall G,
  (forall x y, edge G x y -> In y order) ->
  (exists x, path1 G x x) -> hasCycleFrom order G = true.
Proof.
  induction order as [|b rest IH]; intros G Hclosed [x Hx]; simpl.
  - inversion Hx as [x' y z Hxy _]. destruct (Hclosed _ _ Hxy).
  - destruct (edgeb G b b) eqn:E; [reflexivity|]. apply IH.
    + intros x' y' He. pose proof (edge_bypass_target _ _ _ _ He) as Hne.
      apply edge_bypass_iff in He. destruct He as [_ He].
      assert (Hin : In y' (b :: rest)).
      { destruct He as [He | [_ He]]; eapply Hclosed; exact He. }
      destruct Hin as [-> | Hin]; [congruence | exact Hin].
    + destruct (string_dec x b) as [-> | Nx].
      * inversion Hx as [x' y z Hxy Hyb]. subst.
        assert (Ny : y <> b).
        { intros ->. apply edgeb_spec in Hxy. congruence. }
        exists y. apply path1_bypass; auto.
        eapply path_path1; [exact Hyb | now apply edge_path1].
      * exists x. now apply path1_bypass.
Qed.

Lemma DAG_check (G : Graph) :
  DAG G -> noDanglingEdge G && negb (hasCycle G) = true.
Proof.
  intros [_ Hclosed Hacyclic]. apply andb_true_iff. split.
  - now apply noDanglingEdge_spec.
  - apply negb_true_iff. destruct (hasCycle G) eqn:E; [|reflexivity].
    apply hasCycleFrom_sound in E. destruct E as [x Hx].
    now destruct (Hacyclic x).
Qed.

Lemma check_DAG (G : Graph) :
  NoDup (ids G) -> noDanglingEdge G && negb (hasCycle G) = true -> DAG G.
Proof.
  intros Hids H. apply andb_true_iff in H. destruct H as [Hd Hc].
  pose proof (proj1 (noDanglingEdge_spec G) Hd) as Hclosed.
  apply negb_true_iff in Hc.
  split; [exact Hids | exact Hclosed |].
  intros x Hx. unfold hasCycle in Hc.
  rewrite (hasCycleFrom_complete (ids G) G Hclosed) in Hc; [discriminate|].
  now exists x.
Qed.

(** On a graph without dangling edge the detection is exact. *)
Lemma hasCycle_spec (G : Graph) :
  noDanglingEdge G = true ->
  (hasCycle G = true <-> exists x, path1 G x x).
Proof.
  intros Hd. split.
  - apply hasCycleFrom_sound.
  - apply hasCycleFrom_complete. now apply noDanglingEdge_spec.
Qed.

End CycleCheck.

(** ** Pruning *)

Section Prune.

Variable predicate : Node -> bool.

Lemma map_node_bypassAll (bs : list string) :
  forall G, map node (bypassAll bs G) = map node G.
Proof.
  induction bs as [|b bs IH]; intros G; simpl; [reflexivity|].
  unfold bypassAll in IH. rewrite IH. apply map_node_bypass.
Qed.

Lemma path_bypassAll (bs : list string) :
  forall G u v,
  path G u v -> ~ In u bs -> ~ In v bs -> path (bypassAll bs G) u v.
Proof.
  induction bs as [|b bs IH]; intros G u v H Hu Hv; simpl; [exact H|].
  apply IH.
  - apply path_bypass; [exact H | |]; intros ->; [apply Hu | apply Hv];
      now left.
  - intros Hin. apply Hu. now right.
  - intros Hin. apply Hv. now right.
Qed.

Lemma path_bypassAll_inv (bs : list string) :
  forall G u v, path (bypassAll bs G) u v -> path G u v.
Proof.
  induction bs as [|b bs IH]; intros G u v H; simpl in H; [exact H|].
  eapply path_bypass_inv. apply IH. exact H.
Qed.

Lemma no_edge_into_bypassAll (bs : list string) :
  forall G b,
  (forall x, ~ edge G x b) -> forall x, ~ edge (bypassAll bs G) x b.
Proof.
  induction bs as [|c bs IH]; intros G b H x; simpl; [apply H|].
  apply IH. intros x' He. apply edge_bypass_iff in He.
  destruct He as [_ [He | [_ He]]]; eapply H; exact He.
Qed.

Lemma edge_bypassAll_target (bs : list string) :
  forall G x y, edge (bypassAll bs G) x y -> ~ In y bs.
Proof.
  induction bs as [|b bs IH]; simpl; intros G x y He Hin; [exact Hin|].
  destruct Hin as [<- | Hin].
  - revert He. apply no_edge_into_bypassAll.
    intros x' He. now apply edge_bypass_target in He.
  - eapply IH; eassumption.
Qed.

Lemma map_node_filter (H : Graph) :
  map node (filter (fun gn => predicate (node gn)) H)
  = filter predicate (map node H).
Proof.
  induction H as [|gn H IH]; simpl; [reflexivity|].
  destruct (predicate (node gn)); simpl; now rewrite IH.
Qed.

Lemma nodes_prune (G : Graph) :
  map node (prune predicate G) = filter predicate (map node G).
Proof.
  unfold prune. now rewrite map_node_filter, map_node_bypassAll.
Qed.

Lemma In_excluded (G : Graph) (x : string) :
  In x (excluded predicate G) <->
  exists gn, In gn G /\ nodeId gn = x /\ predicate (node gn) = false.
Proof.
  unfold excluded, ids. rewrite in_map_iff. split.
  - intros (gn & Hid & Hin). apply filter_In in Hin. destruct Hin as [Hin Hp].
    apply negb_true_iff in Hp. eauto.
  - intros (gn & Hin & Hid & Hp). exists gn. split; [exact Hid|].
    apply filter_In. split; [exact Hin | now apply negb_true_iff].
Qed.

Lemma NoDup_map_inj {A B} (f : A -> B) (l : list A) (a b : A) :
  NoDup (map f l) -> In a l -> In b l -> f a = f b -> a = b.
Proof.
  induction l as [|c l IH]; simpl; intros Hnd Ha Hb E; [destruct Ha|].
  inversion Hnd as [|? ? Hnotin Hnd']; subst.
  destruct Ha as [-> | Ha], Hb as [-> | Hb]; auto.
  - exfalso. apply Hnotin. rewrite E. now apply in_map.
  - exfalso. apply Hnotin. rewrite <- E. now apply in_map.
Qed.

Lemma retained_not_excluded (G : Graph) (gu : GraphNode) :
  NoDup (ids G) -> In gu G -> predicate (node gu) = true ->
  ~ In (nodeId gu) (excluded predicate G).
Proof.
  intros Hnd Hin Hp Hex. apply In_excluded in Hex.
  destruct Hex as (ge & Hge & Hid & Hpe).
  assert (ge = gu) by (eapply (NoDup_map_inj nodeId); eassumption).
  subst. congruence.
Qed.

(** Filtering the table keeps every path whose nodes are all retained. *)
Lemma path_filter (G H : Graph) (u v : string) :
  map node H = map node G ->
  (forall x y, edge H x y -> ~ In y (excluded predicate G)) ->
  path H u v -> ~ In u (excluded predicate G) ->
  path (filter (fun gn => predicate (node gn)) H) u v.
Proof.
  intros Hnodes Htarget. induction 1 as [x | x y z Hxy Hyz IH]; intros Hu.
  - apply path_refl.
  - eapply path_step; [|apply IH; eapply Htarget; exact Hxy].
    destruct Hxy as (gn & Hin & Hid & Hy). exists gn.
    split; [|split; assumption]. apply filter_In. split; [exact Hin|].
    destruct (predicate (node gn)) eqn:Hp; [reflexivity|].
    exfalso. apply Hu. apply In_excluded.
    assert (Hn : In (node gn) (map node G)).
    { rewrite <- Hnodes. now apply in_map. }
    apply in_map_iff in Hn. destruct Hn as (g0 & E & Hg0).
    exists g0. unfold nodeId in *. rewrite E. auto.
Qed.

Lemma edge_filter (H : Graph) (x y : string) :
  edge (filter (fun gn => predicate (node gn)) H) x y -> edge H x y.
Proof.
  intros (gn & Hin & Hid & Hy). apply filter_In in Hin. exists gn. tauto.
Qed.

Lemma path_filter_inv (H : Graph) (x y : string) :
  path (filter (fun gn => predicate (node gn)) H) x y -> path H x y.
Proof.
  induction 1 as [|x y z Hxy _ IH]; [apply path_refl|].
  eapply path_step; [apply edge_filter; exact Hxy | exact IH].
Qed.

Lemma prune_paths (G : Graph) (gu gv : GraphNode) :
  NoDup (ids G) ->
  In gu G -> predicate (node gu) = true ->
  In gv G -> predicate (node gv) = true ->
  path G (nodeId gu) (nodeId gv) ->
  path (prune predicate G) (nodeId gu) (nodeId gv).
Proof.
  intros Hnd Hu Hpu Hv Hpv Hpath.
  pose proof (retained_not_excluded G gu Hnd Hu Hpu) as Nu.
  pose proof (retained_not_excluded G gv Hnd Hv Hpv) as Nv.
  unfold prune. apply path_filter with (G := G).
  - apply map_node_bypassAll.
  - apply edge_bypassAll_target.
  - now apply path_bypassAll.
  - exact Nu.
Qed.

Lemma prune_paths_inv (G : Graph) (x y : string) :
  path (prune predicate G) x y -> path G x y.
Proof.
  intros H. apply path_filter_inv in H. now apply path_bypassAll_inv in H.
Qed.

End Prune.

(** ** The store: cloning and the metric computation *)

Section Store.

Local Open Scope float_scope.

Lemma nth_error_snoc_old {A} (l : list A) (a : A) (n : nat) :
  n < List.length l -> nth_error (l ++ [a]) n = nth_error l n.
Proof. intros H. now apply nth_error_app1. Qed.

Lemma nth_error_snoc_new {A} (l : list A) (a : A) :
  nth_error (l ++ [a]) (List.length l) = Some a.
Proof. rewrite nth_error_app2, Nat.sub_diag; [reflexivity | apply Nat.le_refl]. Qed.

Lemma nth_error_Some_lt {A} (l : list A) (n : nat) (a : A) :
  nth_error l n = Some a -> n < List.length l.
Proof. intros H. apply nth_error_Some. congruence. Qed.

Lemma cloneWithRelationships_ok
    (predicate : Node -> bool) (w : World) (this : nat) (G : Graph) :
  nth_error (graphs w) this = Some G -> DAG G ->
  cloneWithRelationships predicate this w
  = (Ok (List.length (graphs w)),
     {| graphs := graphs w ++ [prune predicate G];
        simulated := simulated w |}).
Proof.
  intros Hg Hdag. unfold cloneWithRelationships.
  now rewrite Hg, (DAG_check G Hdag).
Qed.

(** A graph with a cycle or a dangling edge is refused, and the store is
    left as it was. *)
Lemma cloneWithRelationships_malformed
    (predicate : Node -> bool) (w : World) (this : nat) (G : Graph) :
  nth_error (graphs w) this = Some G ->
  (exists x y, edge G x y /\ ~ In y (ids G)) \/ (exists x, path1 G x x) ->
  cloneWithRelationships predicate this w = (Throw MalformedGraph, w).
Proof.
  intros Hg H. unfold cloneWithRelationships. rewrite Hg.
  destruct (noDanglingEdge G) eqn:Hd; [|reflexivity].
  destruct H as [(x & y & He & Hy) | Hc].
  - exfalso. apply Hy. revert He. now apply noDanglingEdge_spec.
  - apply (hasCycle_spec G Hd) in Hc. now rewrite Hc.
Qed.

Example cloneWithRelationships_cyclicGraph :
  cloneWithRelationships Interactive.isCriticalNode 0
    {| graphs := [Examples.cyclicGraph]; simulated := [] |}
  = (Throw MalformedGraph,
     {| graphs := [Examples.cyclicGraph]; simulated := [] |}).
Proof. vm_compute. reflexivity. Qed.

(** [Interactive.compute], case by case. *)
Lemma compute_unfold
    (data : MetricComputationDataInput) (extras : option ExtrasInput.t)
    (w : World) :
  Interactive.compute data extras w =
  match Interactive.lcpResultOf extras with
  | None =>
      (Throw (MissingDependency
                "LCP is required to calculate the Interactive metric"), w)
  | Some lcp =>
      match nth_error (graphs w) (graph data) with
      | None => (Throw MalformedGraph, w)
      | Some G =>
          if noDanglingEdge G && negb (hasCycle G) then
            let G' := prune Interactive.isCriticalNode G in
            let g' := List.length (graphs w) in
            match simulator data (options data) G' with
            | None =>
                (Throw SimulatorFailure,
                 {| graphs := graphs w ++ [G'];
                    simulated := simulated w ++ [g'] |})
            | Some rawOptimistic =>
                match simulator data (options data) G with
                | None =>
                    (Throw SimulatorFailure,
                     {| graphs := graphs w ++ [G'];
                        simulated := (simulated w ++ [g']) ++ [graph data] |})
                | Some rawPessimistic =>
                    let optimisticEstimate :=
                      {| Simulation.timeInMs :=
                           JS.Math_max
                             (Simulation.timeInMs (Metrics.optimisticEstimate lcp))
                             (Interactive.getLastLongTaskEndTime
                                (Simulation.nodeTimings rawOptimistic) None);
                         Simulation.nodeTimings :=
                           Simulation.nodeTimings rawOptimistic |} in
                    let pessimisticEstimate :=
                      {| Simulation.timeInMs :=
                           JS.Math_max
                             (Simulation.timeInMs (Metrics.pessimisticEstimate lcp))
                             (Interactive.getLastLongTaskEndTime
                                (Simulation.nodeTimings rawPessimistic) None);
                         Simulation.nodeTimings :=
                           Simulation.nodeTimings rawPessimistic |} in
                    (Ok {| Metrics.timing :=
                             JS.Math_max
                               (Metric.blend Interactive.coefficients
                                  optimisticEstimate pessimisticEstimate)
                               (Metrics.timing lcp);
                           Metrics.optimisticEstimate := optimisticEstimate;
                           Metrics.pessimisticEstimate := pessimisticEstimate;
                           Metrics.optimisticGraph := g';
                           Metrics.pessimisticGraph := graph data |},
                     {| graphs := graphs w ++ [G'];
                        simulated := (simulated w ++ [g']) ++ [graph data] |})
                end
            end
          else (Throw MalformedGraph, w)
      end
  end.
Proof.
  unfold Interactive.compute.
  destruct (Interactive.lcpResultOf extras) as [lcp|] eqn:Hlcp; [|reflexivity].
  unfold bind at 1, Metric.compute, bind at 1. simpl.
  unfold Interactive.getOptimisticGraph, cloneWithRelationships.
  destruct (nth_error (graphs w) (graph data)) as [G|] eqn:HG; [|reflexivity].
  destruct (noDanglingEdge G && negb (hasCycle G)); [|reflexivity].
  unfold bind at 1, Interactive.getPessimisticGraph, ret at 1.
  unfold bind at 1, Metric.simulate at 1. simpl.
  rewrite nth_error_snoc_new.
  destruct (simulator data (options data) (prune Interactive.isCriticalNode G))
    as [ro|]; [|reflexivity].
  unfold bind at 1, Metric.simulate at 1. simpl.
  rewrite (nth_error_snoc_old _ _ _ (nth_error_Some_lt _ _ _ HG)), HG.
  destruct (simulator data (options data) G) as [rp|]; [|reflexivity].
  unfold bind, lift, ret, Interactive.getEstimateFromSimulation.
  assert (E : forall flag, lcpResult (withOptimistic extras flag) = Some lcp).
  { intros flag. destruct extras as [e|]; simpl in *; [exact Hlcp | discriminate]. }
  rewrite !E.
  assert (O : forall flag, optimistic (withOptimistic extras flag) = flag).
  { intros flag. destruct extras; reflexivity. }
  rewrite !O. reflexivity.
Qed.

End Store.

(** ** The optimistic graph and [cloneWithRelationships] *)

Section Graphs.

Local Open Scope string_scope.
Local Open Scope float_scope.

Lemma isCriticalNode_spec (n : Node) :
  Interactive.isCriticalNode n = true <->
  (exists i d, n = CPUNode i d /\ (20 * 1000 <? d) = true)
  \/ (exists i request,
        n = NetworkNode i request
        /\ resourceType request <> "Image"
        /\ (resourceType request = "Script"
            \/ priority request = "High"
            \/ priority request = "VeryHigh")).
Proof.
  destruct n as [i d | i request]; simpl.
  - split.
    + intros H. left. exists i, d. split; [reflexivity | exact H].
    + intros [(i' & d' & E & H) | (i' & r' & E & _)]; [|discriminate].
      injection E as -> ->. exact H.
  - rewrite andb_true_iff, negb_true_iff, !orb_true_iff, !String.eqb_eq,
      String.eqb_neq.
    split.
    + intros [H1 H2]. right. exists i, request. tauto.
    + intros [(i' & d' & E & _) | (i' & r' & E & H1 & H2)]; [discriminate|].
      injection E as -> ->. tauto.
Qed.

(** C8: on a graph [G] of the store (a DAG, as the data model has it),
    [cloneWithRelationships predicate] returns a new graph object [G'] whose
    nodes are exactly the nodes of [G] that satisfy [predicate], in order;
    every dependency path of [G] between two retained nodes is a path of
    [G'], and [G'] has no path that [G] has not; the graphs already in the
    store, [G] among them, are left as they were. *)
Theorem cloneWithRelationships_spec
    (predicate : Node -> bool) (w : World) (this : nat) (G : Graph) :
  nth_error (graphs w) this = Some G -> DAG G ->
  exists G',
    cloneWithRelationships predicate this w
    = (Ok (List.length (graphs w)),
       {| graphs := graphs w ++ [G']; simulated := simulated w |})
    /\ map node G' = filter predicate (map node G)
    /\ (forall gu gv,
          In gu G -> predicate (node gu) = true ->
          In gv G -> predicate (node gv) = true ->
          path G (nodeId gu) (nodeId gv) -> path G' (nodeId gu) (nodeId gv))
    /\ (forall x y, path G' x y -> path G x y)
    /\ (forall g, g < List.length (graphs w) ->
          nth_error (graphs w ++ [G']) g = nth_error (graphs w) g)
    /\ nth_error (graphs w ++ [G']) this = Some G
    /\ this <> List.length (graphs w).
Proof.
  intros Hg Hdag. exists (prune predicate G).
  pose proof (nth_error_Some_lt _ _ _ Hg) as Hlt.
  split; [now apply cloneWithRelationships_ok|].
  split; [apply nodes_prune|].
  split; [intros gu gv; apply prune_paths; apply Hdag|].
  split; [apply prune_paths_inv|].
  split; [intros g; apply nth_error_snoc_old|].
  split; [now rewrite nth_error_snoc_old | lia].
Qed.

Lemma exampleGraph_DAG : DAG Examples.exampleGraph.
Proof.
  apply check_DAG; [|vm_compute; reflexivity].
  repeat constructor; simpl; intuition discriminate.
Qed.

(** The example graph loses the image B and the short task D; the edge
    A -> C stands for the path A -> B -> C. *)
Example prune_exampleGraph :
  prune Interactive.isCriticalNode Examples.exampleGraph
  = [ {| node := NetworkNode "A" (Examples.request "Document" "VeryHigh");
         dependents := ["C"] |};
      {| node := CPUNode "C" 30000; dependents := [] |} ].
Proof. vm_compute. reflexivity. Qed.

(** C8 on the example graph: the clone is the second graph object of the
    store and holds the document A and the long task C. *)
Lemma cloneWithRelationships_witness :
  nth_error (graphs Examples.exampleWorld) 0 = Some Examples.exampleGraph
  /\ DAG Examples.exampleGraph
  /\ exists G',
       cloneWithRelationships Interactive.isCriticalNode 0 Examples.exampleWorld
       = (Ok 1%nat, {| graphs := [Examples.exampleGraph; G']; simulated := [] |})
       /\ map node G'
          = filter Interactive.isCriticalNode (map node Examples.exampleGraph).
Proof.
  split; [reflexivity|]. split; [exact exampleGraph_DAG|].
  destruct (cloneWithRelationships_spec Interactive.isCriticalNode
              Examples.exampleWorld 0 Examples.exampleGraph
              eq_refl exampleGraph_DAG) as (G' & H1 & H2 & _).
  exists G'. split; [exact H1 | exact H2].
Defined.

(** C1: on a graph [G] of the store (a DAG), [getOptimisticGraph] returns a
    new graph object whose nodes are exactly the nodes of [G] that are a CPU
    task with duration strictly greater than 20 * 1000 microseconds, or a
    network request that is not an image and is a script or has priority
    High or VeryHigh. *)
Theorem getOptimisticGraph_retains
    (w : World) (dependencyGraph : nat) (G : Graph) :
  nth_error (graphs w) dependencyGraph = Some G -> DAG G ->
  exists g' w' G',
    Interactive.getOptimisticGraph dependencyGraph w = (Ok g', w')
    /\ nth_error (graphs w') g' = Some G'
    /\ g' <> dependencyGraph
    /\ forall n,
         In n (map node G') <->
         In n (map node G)
         /\ ((exists i d, n = CPUNode i d /\ (20 * 1000 <? d) = true)
             \/ (exists i request,
                   n = NetworkNode i request
                   /\ resourceType request <> "Image"
                   /\ (resourceType request = "Script"
                       \/ priority request = "High"
                       \/ priority request = "VeryHigh"))).
Proof.
  intros Hg Hdag. unfold Interactive.getOptimisticGraph.
  rewrite (cloneWithRelationships_ok _ _ _ _ Hg Hdag).
  pose proof (nth_error_Some_lt _ _ _ Hg) as Hlt.
  eexists _, _, _. split; [reflexivity|]. simpl.
  split; [apply nth_error_snoc_new|]. split; [lia|].
  intros n. rewrite nodes_prune, filter_In, isCriticalNode_spec. reflexivity.
Qed.

(** C1 on the example graph, for its long task C. *)
Lemma getOptimisticGraph_witness :
  nth_error (graphs Examples.exampleWorld) 0 = Some Examples.exampleGraph
  /\ DAG Examples.exampleGraph
  /\ exists g' w' G',
       Interactive.getOptimisticGraph 0 Examples.exampleWorld = (Ok g', w')
       /\ nth_error (graphs w') g' = Some G'
       /\ (In (CPUNode "C" 30000) (map node G')
           <-> In (CPUNode "C" 30000) (map node Examples.exampleGraph)
               /\ ((exists i d, CPUNode "C" 30000 = CPUNode i d
                                /\ (20 * 1000 <? d) = true)
                   \/ (exists i request,
                         CPUNode "C" 30000 = NetworkNode i request
                         /\ resourceType request <> "Image"
                         /\ (resourceType request = "Script"
                             \/ priority request = "High"
                             \/ priority request = "VeryHigh")))).
Proof.
  split; [reflexivity|]. split; [exact exampleGraph_DAG|].
  destruct (getOptimisticGraph_retains Examples.exampleWorld 0
              Examples.exampleGraph eq_refl exampleGraph_DAG)
    as (g' & w' & G' & H1 & H2 & _ & H3).
  exists g', w', G'. split; [exact H1|]. split; [exact H2 | apply H3].
Defined.

End Graphs.

(** ** Interactive.compute *)

Section Compute.

Local Open Scope float_scope.

Variable data : MetricComputationDataInput.
Variable extras : option ExtrasInput.t.

Lemma compute_Ok_inv (w : World) (r : Metrics.Result) (w' : World) :
  Interactive.compute data extras w = (Ok r, w') ->
  exists lcp G optimisticEstimate pessimisticEstimate,
    Interactive.lcpResultOf extras = Some lcp
    /\ nth_error (graphs w) (graph data) = Some G
    /\ r = {| Metrics.timing :=
                JS.Math_max
                  (Metric.blend Interactive.coefficients
                     optimisticEstimate pessimisticEstimate)
                  (Metrics.timing lcp);
              Metrics.optimisticEstimate := optimisticEstimate;
              Metrics.pessimisticEstimate := pessimisticEstimate;
              Metrics.optimisticGraph := List.length (graphs w);
              Metrics.pessimisticGraph := graph data |}
    /\ graphs w' = graphs w ++ [prune Interactive.isCriticalNode G]
    /\ simulated w'
       = (simulated w ++ [List.length (graphs w)]) ++ [graph data].
Proof.
  rewrite compute_unfold.
  destruct (Interactive.lcpResultOf extras) as [lcp|]; [|discriminate].
  destruct (nth_error (graphs w) (graph data)) as [G|]; [|discriminate].
  destruct (noDanglingEdge G && negb (hasCycle G)); [|discriminate].
  cbv zeta.
  destruct (simulator data (options data) _) as [ro|]; [|discriminate].
  destruct (simulator data (options data) G) as [rp|]; [|discriminate].
  intros E. injection E as <- <-.
  eexists lcp, G, _, _. repeat split.
Qed.

(** The base policy's timing is the linear blend of its two estimates. *)
Lemma Metric_compute_timing
    (policy : Metric.Policy) (w : World) (m : Metrics.Result) (w' : World) :
  Metric.compute policy data extras w = (Ok m, w') ->
  Metrics.timing m
  = Metric.blend (Metric.coefficients policy)
      (Metrics.optimisticEstimate m) (Metrics.pessimisticEstimate m).
Proof.
  unfold Metric.compute, bind, lift, ret.
  destruct (Metric.getOptimisticGraph policy (graph data) w) as [[g1|] w1];
    [|discriminate].
  destruct (Metric.getPessimisticGraph policy (graph data) w1) as [[g2|] w2];
    [|discriminate].
  destruct (Metric.simulate data g1 w2) as [[r1|] w3]; [|discriminate].
  destruct (Metric.simulate data g2 w3) as [[r2|] w4]; [|discriminate].
  destruct (Metric.getEstimateFromSimulation policy r1 _) as [e1|];
    [|discriminate].
  destruct (Metric.getEstimateFromSimulation policy r2 _) as [e2|];
    [|discriminate].
  intros E. injection E as <- <-. reflexivity.
Qed.

End Compute.

(** ** The claims about Interactive.compute *)

Section Claims.

Local Open Scope float_scope.

Lemma getLastLongTaskEndTime_not_nan
    (nodeTimings : NodeTimings) (duration : option float) :
  is_nan (Interactive.getLastLongTaskEndTime nodeTimings duration) = false.
Proof.
  unfold Interactive.getLastLongTaskEndTime.
  assert (H0 : (0 <=? 0) = true) by reflexivity.
  match goal with
  | |- is_nan (fold_left _ ?l 0) = false =>
      destruct (reduce_spec l 0 H0) as (Hr & _)
  end.
  now destruct (leb_not_nan _ _ Hr).
Qed.

(** C3: given an [lcpResult], [getEstimateFromSimulation] returns the node
    timings of the simulation unchanged and [timeInMs = Math.max(branch LCP
    time, last long task end time)], the branch LCP time being the
    optimistic estimate of [lcpResult] when [extras.optimistic] is set and
    the pessimistic one otherwise; unless the LCP time is NaN this is one
    of the two and at least both. *)
Theorem getEstimateFromSimulation_max
    (simulationResult : Simulation.Result) (extras : Extras)
    (lcp : Metrics.Result) :
  lcpResult extras = Some lcp ->
  let branchLcpTiming :=
    if optimistic extras
    then Simulation.timeInMs (Metrics.optimisticEstimate lcp)
    else Simulation.timeInMs (Metrics.pessimisticEstimate lcp) in
  let lastLongTaskEndTime :=
    Interactive.getLastLongTaskEndTime
      (Simulation.nodeTimings simulationResult) None in
  Interactive.getEstimateFromSimulation simulationResult extras
  = Ok {| Simulation.timeInMs := JS.Math_max branchLcpTiming lastLongTaskEndTime;
          Simulation.nodeTimings := Simulation.nodeTimings simulationResult |}
  /\ (is_nan branchLcpTiming = false ->
      (JS.Math_max branchLcpTiming lastLongTaskEndTime = branchLcpTiming
       \/ JS.Math_max branchLcpTiming lastLongTaskEndTime = lastLongTaskEndTime)
      /\ (branchLcpTiming <=? JS.Math_max branchLcpTiming lastLongTaskEndTime) = true
      /\ (lastLongTaskEndTime <=? JS.Math_max branchLcpTiming lastLongTaskEndTime) = true).
Proof.
  intros Hlcp. cbv zeta. split.
  - unfold Interactive.getEstimateFromSimulation. now rewrite Hlcp.
  - intros Hn. apply Math_max_spec; [exact Hn|].
    apply getLastLongTaskEndTime_not_nan.
Qed.

(** C3 on an optimistic branch without long task: the estimate is the
    optimistic LCP time 1107. *)
Lemma getEstimateFromSimulation_witness :
  Interactive.getEstimateFromSimulation
    (Examples.exampleEstimate 1200)
    (withOptimistic (Examples.exampleExtras 1100) true)
  = Ok (Examples.exampleEstimate 1107).
Proof.
  destruct (getEstimateFromSimulation_max
              (Examples.exampleEstimate 1200)
              (withOptimistic (Examples.exampleExtras 1100) true)
              (Examples.exampleLcp 1100) eq_refl) as [H _].
  exact H.
Defined.




(** C5: the TTI coefficients are intercept 0, optimistic 0.45, pessimistic
    0.55; when [Interactive.compute] succeeds, the base computation has
    succeeded with the timing [0 + 0.45 * optimisticEstimate.timeInMs + 0.55
    * pessimisticEstimate.timeInMs] over the two estimates of the result,
    and the returned timing is [Math.max] of that blend and the LCP timing;
    for the estimates 1107 and 1134 the blend is 1121.85 (to the nearest
    binary64 value), which rounds to 1122. *)
Theorem compute_blend
    (data : MetricComputationDataInput) (extras : option ExtrasInput.t)
    (w : World) (r : Metrics.Result) (w' : World) :
  Interactive.compute data extras w = (Ok r, w') ->
  exists lcp m,
    Interactive.lcpResultOf extras = Some lcp
    /\ Metric.compute Interactive.policy data extras w = (Ok m, w')
    /\ Metrics.timing m
       = 0 + 0.45 * Simulation.timeInMs (Metrics.optimisticEstimate r)
           + 0.55 * Simulation.timeInMs (Metrics.pessimisticEstimate r)
    /\ Metrics.timing r = JS.Math_max (Metrics.timing m) (Metrics.timing lcp)
    /\ Interactive.coefficients
       = {| Simulation.intercept := 0;
            Simulation.optimistic := 0.45;
            Simulation.pessimistic := 0.55 |}
    /\ Metric.blend Interactive.coefficients
         (Examples.exampleEstimate 1107) (Examples.exampleEstimate 1134)
       = 1121.8500000000001
    /\ JS.Math_round
         (Metric.blend Interactive.coefficients
            (Examples.exampleEstimate 1107) (Examples.exampleEstimate 1134))
       = Some 1122%Z.
Proof.
  unfold Interactive.compute.
  destruct (Interactive.lcpResultOf extras) as [lcp|]; [|discriminate].
  unfold bind, ret.
  destruct (Metric.compute Interactive.policy data extras w)
    as [[m|e] wm] eqn:Hm; [|discriminate].
  intros E. injection E as <- <-. exists lcp, m. simpl.
  split; [reflexivity|]. split; [reflexivity|].
  split; [exact (Metric_compute_timing data extras _ w m wm Hm)|].
  repeat split.
Qed.

(** C5 on the example. *)
Lemma compute_blend_witness :
  exists r w' lcp m,
    Interactive.compute Examples.exampleData (Examples.exampleExtras 1100)
      Examples.exampleWorld = (Ok r, w')
    /\ Interactive.lcpResultOf (Examples.exampleExtras 1100) = Some lcp
    /\ Metrics.timing m
       = 0 + 0.45 * Simulation.timeInMs (Metrics.optimisticEstimate r)
           + 0.55 * Simulation.timeInMs (Metrics.pessimisticEstimate r)
    /\ Metrics.timing r = JS.Math_max (Metrics.timing m) (Metrics.timing lcp).
Proof.
  destruct (Interactive.compute Examples.exampleData
              (Examples.exampleExtras 1100) Examples.exampleWorld)
    as [[r|e] w'] eqn:E; [|vm_compute in E; discriminate].
  destruct (compute_blend Examples.exampleData (Examples.exampleExtras 1100)
              Examples.exampleWorld r w' E)
    as (lcp & m & H1 & _ & H2 & H3 & _).
  exists r, w', lcp, m. repeat split; assumption.
Defined.

(** C6: [Interactive.compute] fails with [MissingDependency] exactly when
    [extras?.lcpResult] is absent, that is when [extras] is left out or has
    no [lcpResult]; it then returns the error with the world as it was: no
    graph was cloned and no simulation was run.
    [getEstimateFromSimulation] throws exactly when [extras.lcpResult] is
    absent. *)
Theorem compute_missing_lcpResult
    (data : MetricComputationDataInput) (extras : option ExtrasInput.t)
    (w : World) :
  ((exists message,
      fst (Interactive.compute data extras w)
      = Throw (MissingDependency message))
   <-> Interactive.lcpResultOf extras = None)
  /\ (Interactive.lcpResultOf extras = None
      <-> extras = None
          \/ exists e, extras = Some e /\ ExtrasInput.lcpResult e = None)
  /\ (Interactive.lcpResultOf extras = None ->
      Interactive.compute data extras w
      = (Throw (MissingDependency
                  "LCP is required to calculate the Interactive metric"), w))
  /\ (forall simulationResult extras',
        (exists error,
           Interactive.getEstimateFromSimulation simulationResult extras'
           = Throw error)
        <-> lcpResult extras' = None)
  /\ (forall simulationResult extras',
        lcpResult extras' = None ->
        Interactive.getEstimateFromSimulation simulationResult extras'
        = Throw (MissingDependency "missing lcpResult")).
Proof.
  split; [|split; [|split; [|split]]].
  - rewrite compute_unfold. split.
    + intros [message H].
      destruct (Interactive.lcpResultOf extras) as [lcp|]; [|reflexivity].
      exfalso.
      destruct (nth_error (graphs w) (graph data)) as [G|]; [|discriminate].
      destruct (noDanglingEdge G && negb (hasCycle G)); [|discriminate].
      cbv zeta in H.
      destruct (simulator data (options data) _); [|discriminate].
      destruct (simulator data (options data) G); discriminate.
    + intros ->. eexists. reflexivity.
  - destruct extras as [e|]; simpl; split.
    + intros H. right. exists e. auto.
    + intros [H | (e' & E & H)]; [discriminate|]. now injection E as ->.
    + intros _. now left.
    + reflexivity.
  - intros H. rewrite compute_unfold, H. reflexivity.
  - intros simulationResult extras'.
    unfold Interactive.getEstimateFromSimulation.
    destruct (lcpResult extras'); split.
    + intros [error H]. discriminate.
    + discriminate.
    + reflexivity.
    + intros _. eexists. reflexivity.
  - intros simulationResult extras' H.
    unfold Interactive.getEstimateFromSimulation. now rewrite H.
Qed.

(** C7 (amended): when [Interactive.compute] succeeds on the graph object
    [data.graph], whose graph is [G], it has allocated one new graph object,
    the pruned clone, and written nothing else to the store: every graph
    that was there is unchanged.  The result's [optimisticGraph] is that new
    object, distinct from [data.graph]; its [pessimisticGraph] is the object
    [data.graph] itself, the full graph [G]. *)
Theorem compute_graphs
    (data : MetricComputationDataInput) (extras : option ExtrasInput.t)
    (w : World) (r : Metrics.Result) (w' : World) :
  Interactive.compute data extras w = (Ok r, w') ->
  exists G,
    nth_error (graphs w) (graph data) = Some G
    /\ graphs w' = (graphs w ++ [prune Interactive.isCriticalNode G])%list
    /\ (forall g, g < List.length (graphs w) ->
          nth_error (graphs w') g = nth_error (graphs w) g)
    /\ Metrics.optimisticGraph r = List.length (graphs w)
    /\ Metrics.optimisticGraph r <> graph data
    /\ nth_error (graphs w') (Metrics.optimisticGraph r)
       = Some (prune Interactive.isCriticalNode G)
    /\ Metrics.pessimisticGraph r = graph data
    /\ nth_error (graphs w') (Metrics.pessimisticGraph r) = Some G.
Proof.
  intros H.
  destruct (compute_Ok_inv data extras w r w' H)
    as (lcp & G & oe & pe & _ & HG & -> & Hw & _).
  pose proof (nth_error_Some_lt _ _ _ HG) as Hlt.
  exists G. rewrite Hw. simpl.
  split; [exact HG|]. split; [reflexivity|].
  split; [intros g; apply nth_error_snoc_old|].
  split; [reflexivity|]. split; [lia|].
  split; [apply nth_error_snoc_new|]. split; [reflexivity|].
  now rewrite nth_error_snoc_old.
Qed.

(** C7 on the example: the optimistic graph is a new object, the
    pessimistic graph is object 0, the caller's. *)
Lemma compute_graphs_witness :
  exists r w' G,
    Interactive.compute Examples.exampleData (Examples.exampleExtras 1100)
      Examples.exampleWorld = (Ok r, w')
    /\ nth_error (graphs Examples.exampleWorld) 0 = Some G
    /\ Metrics.optimisticGraph r <> 0%nat
    /\ Metrics.pessimisticGraph r = 0%nat
    /\ nth_error (graphs w') (Metrics.pessimisticGraph r) = Some G.
Proof.
  destruct (Interactive.compute Examples.exampleData
              (Examples.exampleExtras 1100) Examples.exampleWorld)
    as [[r|e] w'] eqn:E; [|vm_compute in E; discriminate].
  destruct (compute_graphs Examples.exampleData (Examples.exampleExtras 1100)
              Examples.exampleWorld r w' E)
    as (G & H1 & _ & _ & _ & H2 & _ & H3 & H4).
  exists r, w', G. repeat split; assumption.
Defined.

(** C7 (counterexample): on the example the computation succeeds, the
    result's [pessimisticGraph] is the very reference the caller passed, not
    a clone, and the store has grown by one graph object, not by two. *)
Lemma compute_pessimisticGraph_is_input :
  exists r w',
    Interactive.compute Examples.exampleData (Examples.exampleExtras 1100)
      Examples.exampleWorld = (Ok r, w')
    /\ Metrics.pessimisticGraph r = graph Examples.exampleData
    /\ List.length (graphs w') = S (List.length (graphs Examples.exampleWorld)).
Proof.
  destruct (Interactive.compute Examples.exampleData
              (Examples.exampleExtras 1100) Examples.exampleWorld)
    as [[r|e] w'] eqn:E; vm_compute in E; [|discriminate].
  injection E as <- <-.
  eexists _, _. repeat split.
Qed.

End Claims.

(** ** More about getLastLongTaskEndTime *)

Section LastLongTaskOrder.

Local Open Scope float_scope.

Import Interactive.

Lemma SFcompare_Eq_inv (x y : spec_float) :
  SFcompare x y = Some Eq ->
  x = y \/ exists s s', x = S754_zero s /\ y = S754_zero s'.
Proof.
  destruct x as [sx|sx| |sx mx ex], y as [sy|sy| |sy my ey]; simpl;
    try discriminate;
    try (destruct sx; discriminate);
    try (destruct sy; discriminate).
  - intros _. right. eauto.
  - destruct sx, sy; intros H; try discriminate; now left.
  - change (PosDef.Pos.compare_cont Eq mx my) with (Pos.compare mx my).
    destruct sx, sy; try discriminate;
      destruct (Z.compare_spec ex ey) as [-> | |]; try discriminate;
      destruct (Pos.compare_spec mx my) as [-> | |]; try discriminate;
      intros _; now left.
Qed.

Lemma leb_antisym (x y : float) :
  (x <=? y) = true -> (y <=? x) = true ->
  x = y \/ (is_zero x = true /\ is_zero y = true).
Proof.
  rewrite !FloatAxioms.leb_spec. unfold SFleb.
  rewrite (SFcompare_antisym (Prim2SF x) (Prim2SF y)).
  destruct (SFcompare (Prim2SF x) (Prim2SF y)) as [[]|] eqn:E; simpl;
    try discriminate.
  intros _ _. apply SFcompare_Eq_inv in E.
  destruct E as [E | (s & s' & Ex & Ey)].
  - left. now apply Prim2SF_inj.
  - right. unfold is_zero. rewrite !FloatAxioms.eqb_spec, Ex, Ey.
    now split.
Qed.

Lemma leb_ltb_trans (x y z : float) :
  (x <=? y) = true -> (y <? z) = true -> (x <? z) = true.
Proof.
  rewrite FloatAxioms.leb_spec, !FloatAxioms.ltb_spec. unfold SFleb, SFltb.
  destruct (Prim2SF x) as [sx|sx| |sx mx ex], (Prim2SF y) as [sy|sy| |sy my ey],
           (Prim2SF z) as [sz|sz| |sz mz ez]; simpl;
    try discriminate; try reflexivity;
    try (destruct sx; simpl; try discriminate; try reflexivity);
    try (destruct sy; simpl; try discriminate; try reflexivity);
    try (destruct sz; simpl; try discriminate; try reflexivity);
    change (PosDef.Pos.compare_cont Eq mx my) with (Pos.compare mx my);
    change (PosDef.Pos.compare_cont Eq my mz) with (Pos.compare my mz);
    change (PosDef.Pos.compare_cont Eq mx mz) with (Pos.compare mx mz);
    destruct (Z.compare_spec ex ey), (Z.compare_spec ey ez),
             (Z.compare_spec ex ez); simpl;
    try discriminate; try reflexivity; try lia;
    destruct (Pos.compare_spec mx my), (Pos.compare_spec my mz),
             (Pos.compare_spec mx mz); simpl;
    try discriminate; try reflexivity; try lia.
Qed.

Lemma plain_not_nan (x : float) : plain x -> is_nan x = false.
Proof.
  intros [-> | H]; [reflexivity|]. unfold JS.truthy in H.
  destruct (is_nan x); [discriminate | reflexivity].
Qed.

Lemma plain_or_zero (x : option float) : plain (JS.or_zero x).
Proof.
  destruct x as [v|]; simpl; [|now left].
  destruct (JS.truthy v) eqn:T; [now right | now left].
Qed.

Lemma or_zero_plain (x : float) : plain x -> JS.or_zero (Some x) = x.
Proof. intros [-> | H]; simpl; [reflexivity | now rewrite H]. Qed.

Lemma plain_Math_max (a b : float) :
  plain a -> plain b -> plain (JS.Math_max a b).
Proof.
  intros Ha Hb.
  destruct (Math_max_spec a b (plain_not_nan a Ha) (plain_not_nan b Hb))
    as ([-> | ->] & _); assumption.
Qed.

Lemma plain_antisym (x y : float) :
  plain x -> plain y -> (x <=? y) = true -> (y <=? x) = true -> x = y.
Proof.
  intros Hx Hy H1 H2. destruct (leb_antisym x y H1 H2) as [E | [Zx Zy]];
    [exact E|].
  assert (F : forall v, plain v -> is_zero v = true -> v = 0).
  { intros v [-> | T] Zv; [reflexivity|]. unfold JS.truthy in T.
    rewrite Zv, orb_true_r in T. discriminate. }
  now rewrite (F x Hx Zx), (F y Hy Zy).
Qed.

Lemma plain_fold (l : list (option float)) :
  forall acc, plain acc -> plain (fold_left reducer l acc).
Proof.
  induction l as [|x l IH]; intros acc H; simpl; [exact H|].
  apply IH. unfold reducer. apply plain_Math_max; apply plain_or_zero.
Qed.

Lemma largest_fold (ends : list (option float)) :
  largest ends (fold_left reducer ends 0).
Proof.
  assert (H0 : (0 <=? 0) = true) by reflexivity.
  destruct (reduce_spec ends 0 H0) as (Hr & _ & Hub & Hin).
  split; [apply plain_fold; now left|].
  split; [exact Hr|]. split; [exact Hub|].
  destruct Hin as [E | [E | E]]; auto.
Qed.

Lemma largest_le (ends ends' : list (option float)) (r r' : float) :
  largest ends r -> largest ends' r' ->
  (forall x, In x ends -> In x ends') -> (r <=? r') = true.
Proof.
  intros (Hp & _ & _ & Hin) (_ & H0 & Hub & _) Hsub.
  destruct Hin as [-> | Hin]; [exact H0|].
  rewrite <- (or_zero_plain r Hp). apply Hub, Hsub, Hin.
Qed.

Lemma largest_unique (ends ends' : list (option float)) (r r' : float) :
  largest ends r -> largest ends' r' ->
  (forall x, In x ends <-> In x ends') -> r = r'.
Proof.
  intros H H' Hsame. apply plain_antisym.
  - apply H.
  - apply H'.
  - eapply largest_le; eauto. intros x. apply Hsame.
  - eapply largest_le; eauto. intros x. apply Hsame.
Qed.

Lemma getLastLongTaskEndTime_largest
    (nodeTimings : NodeTimings) (duration : option float) :
  largest
    (longTaskEnds (match duration with Some d => d | None => 50 end) nodeTimings)
    (getLastLongTaskEndTime nodeTimings duration).
Proof. apply largest_fold. Qed.

Lemma longTaskEnds_app (d : float) (l1 l2 : NodeTimings) :
  longTaskEnds d (l1 ++ l2) = longTaskEnds d l1 ++ longTaskEnds d l2.
Proof. unfold longTaskEnds. now rewrite filter_app, map_app. Qed.

Lemma longTaskEnds_Permutation (d : float) (l l' : NodeTimings) :
  Permutation l l' ->
  forall x, In x (longTaskEnds d l) -> In x (longTaskEnds d l').
Proof.
  intros Hp x Hx. unfold longTaskEnds in *. apply in_map_iff in Hx.
  destruct Hx as (entry & E & Hin). apply filter_In in Hin.
  destruct Hin as [Hin Hlong]. apply in_map_iff. exists entry.
  split; [exact E|]. apply filter_In. split; [|exact Hlong].
  eapply Permutation_in; eassumption.
Qed.

(** X1: the result does not depend on the order in which the map yields
    its entries: two lists of node timings that are permutations of each
    other give the same last long task end time. *)
Theorem getLastLongTaskEndTime_Permutation
    (nodeTimings nodeTimings' : NodeTimings) (duration : option float) :
  Permutation nodeTimings nodeTimings' ->
  getLastLongTaskEndTime nodeTimings duration
  = getLastLongTaskEndTime nodeTimings' duration.
Proof.
  intros Hp.
  eapply largest_unique; try apply getLastLongTaskEndTime_largest.
  intros x. split; apply longTaskEnds_Permutation;
    [exact Hp | now apply Permutation_sym].
Qed.

(** X1 on the example: the entries in reverse order. *)
Lemma getLastLongTaskEndTime_Permutation_witness :
  getLastLongTaskEndTime MoreExamples.longTasks None
  = getLastLongTaskEndTime (rev MoreExamples.longTasks) None.
Proof.
  exact (getLastLongTaskEndTime_Permutation MoreExamples.longTasks
           (rev MoreExamples.longTasks) None
           (Permutation_rev MoreExamples.longTasks)).
Defined.

(** X2: the last long task end time of two lists of node timings put
    together is [Math.max] of the two results. *)
Theorem getLastLongTaskEndTime_app
    (l1 l2 : NodeTimings) (duration : option float) :
  getLastLongTaskEndTime (l1 ++ l2) duration
  = JS.Math_max (getLastLongTaskEndTime l1 duration)
                (getLastLongTaskEndTime l2 duration).
Proof.
  set (d := match duration with Some d => d | None => 50 end).
  pose proof (getLastLongTaskEndTime_largest l1 duration) as H1.
  pose proof (getLastLongTaskEndTime_largest l2 duration) as H2.
  fold d in H1, H2.
  set (r1 := getLastLongTaskEndTime l1 duration) in *.
  set (r2 := getLastLongTaskEndTime l2 duration) in *.
  apply (largest_unique (longTaskEnds d (l1 ++ l2)) (longTaskEnds d (l1 ++ l2)));
    [apply getLastLongTaskEndTime_largest | | tauto].
  rewrite longTaskEnds_app.
  destruct H1 as (P1 & Z1 & U1 & M1), H2 as (P2 & Z2 & U2 & M2).
  destruct (Math_max_spec r1 r2 (plain_not_nan r1 P1) (plain_not_nan r2 P2))
    as (Hm & Hl & Hr).
  split; [now apply plain_Math_max|].
  split; [eapply leb_trans; eassumption|].
  split.
  - intros x Hx. apply in_app_or in Hx. destruct Hx as [Hx | Hx];
      eapply leb_trans; [apply U1, Hx | exact Hl | apply U2, Hx | exact Hr].
  - destruct Hm as [-> | ->].
    + destruct M1 as [E | Hin]; [now left | right; apply in_or_app; now left].
    + destruct M2 as [E | Hin]; [now left | right; apply in_or_app; now right].
Qed.

(** X3: raising the threshold never raises the result: for thresholds
    [d1 <= d2] the last long task end time for [d2] is at most that for
    [d1]. *)
Theorem getLastLongTaskEndTime_threshold
    (nodeTimings : NodeTimings) (d1 d2 : float) :
  (d1 <=? d2) = true ->
  (getLastLongTaskEndTime nodeTimings (Some d2)
   <=? getLastLongTaskEndTime nodeTimings (Some d1)) = true.
Proof.
  intros Hd.
  eapply largest_le; try apply getLastLongTaskEndTime_largest.
  intros x Hx. unfold longTaskEnds in *. apply in_map_iff in Hx.
  destruct Hx as ([node t] & E & Hin). apply filter_In in Hin.
  destruct Hin as [Hin Hlong]. apply isLongTask_spec in Hlong.
  destruct Hlong as [Hcpu Hgt].
  apply in_map_iff. exists (node, t). split; [exact E|].
  apply filter_In. split; [exact Hin|]. apply isLongTask_spec.
  split; [exact Hcpu|].
  destruct (NodeTiming.duration t) as [v|]; simpl in *; [|discriminate].
  eapply leb_ltb_trans; eassumption.
Qed.

(** X3 on the example: with threshold 100 only the 120 ms task counts
    (650), with the default 50 all three tasks do (900). *)
Lemma getLastLongTaskEndTime_threshold_witness :
  (50 <=? 100) = true
  /\ getLastLongTaskEndTime MoreExamples.longTasks (Some 100) = 650
  /\ getLastLongTaskEndTime MoreExamples.longTasks (Some 50) = 900
  /\ (getLastLongTaskEndTime MoreExamples.longTasks (Some 100)
      <=? getLastLongTaskEndTime MoreExamples.longTasks (Some 50)) = true.
Proof.
  split; [reflexivity|]. split; [vm_compute; reflexivity|].
  split; [vm_compute; reflexivity|].
  exact (getLastLongTaskEndTime_threshold MoreExamples.longTasks 50 100
           eq_refl).
Defined.

(** X4: with an [lcpResult], the estimate of [getEstimateFromSimulation] is
    NaN exactly when the LCP time of the branch is NaN, and otherwise it is
    at least 0. *)
Theorem getEstimateFromSimulation_nonnegative
    (simulationResult : Simulation.Result) (extras : Extras)
    (lcp : Metrics.Result) :
  lcpResult extras = Some lcp ->
  exists estimate,
    getEstimateFromSimulation simulationResult extras = Ok estimate
    /\ is_nan (Simulation.timeInMs estimate)
       = is_nan (if optimistic extras
                 then Simulation.timeInMs (Metrics.optimisticEstimate lcp)
                 else Simulation.timeInMs (Metrics.pessimisticEstimate lcp))
    /\ (is_nan (Simulation.timeInMs estimate) = false ->
        (0 <=? Simulation.timeInMs estimate) = true).
Proof.
  intros Hlcp. unfold getEstimateFromSimulation. rewrite Hlcp.
  eexists. split; [reflexivity|]. simpl.
  set (b := if optimistic extras then _ else _).
  set (l := getLastLongTaskEndTime _ None).
  destruct (getLastLongTaskEndTime_largest
              (Simulation.nodeTimings simulationResult) None)
    as (Hp & H0 & _). fold l in Hp, H0.
  destruct (is_nan b) eqn:Hb.
  - rewrite Math_max_nan by now left. split; [reflexivity | discriminate].
  - destruct (Math_max_spec b l Hb (plain_not_nan l Hp)) as (Hm & _ & Hr).
    split.
    + destruct Hm as [-> | ->]; [exact Hb | now apply plain_not_nan].
    + intros _. eapply leb_trans; eassumption.
Qed.

(** X4 on a pessimistic branch. *)
Lemma getEstimateFromSimulation_nonnegative_witness :
  exists estimate,
    getEstimateFromSimulation (Examples.exampleEstimate 1200)
      (withOptimistic (Examples.exampleExtras 1100) false) = Ok estimate
    /\ (0 <=? Simulation.timeInMs estimate) = true.
Proof.
  destruct (getEstimateFromSimulation_nonnegative
              (Examples.exampleEstimate 1200)
              (withOptimistic (Examples.exampleExtras 1100) false)
              (Examples.exampleLcp 1100) eq_refl)
    as (estimate & H1 & H2 & H3).
  exists estimate. split; [exact H1|]. apply H3.
  rewrite H2. reflexivity.
Defined.

End LastLongTaskOrder.

(** ** SourceMapScopes.ts: the decoders and nested item sequences *)

Section ScopeDecoding.

Import SourceMapScopes Nested.

Local Open Scope Z_scope.

Lemma ScopeTree_nested_ind (P : ScopeTree -> Prop) :
  (forall l c k f n v ch el ec,
     Forall P ch -> P (ScopeNode l c k f n v ch el ec)) ->
  forall t, P t.
Proof.
  intros H. fix IH 1. intros [l c k f n v ch el ec]. apply H.
  revert ch. fix IHl 1. intros [|t ch]; constructor; [apply IH | apply IHl].
Qed.

Lemma prepend_app {A} (l1 l2 : list A) (rest : Generator A) :
  prepend (l1 ++ l2) rest = prepend l1 (prepend l2 rest).
Proof. induction l1 as [|a l1 IH]; simpl; [reflexivity | now rewrite IH]. Qed.

Lemma size_prepend {A} (l : list A) (rest : Generator A) :
  size (prepend l rest) = (List.length l + size rest)%nat.
Proof. induction l as [|a l IH]; simpl; [reflexivity | now rewrite IH]. Qed.

Lemma resolve_eq (names : list string) (line : Z)
    (l c k f : Z) (n : option Z) (v : list Z) (ch : list ScopeTree)
    (el ec : Z) :
  resolve names line (ScopeNode l c k f n v ch el ec)
  = match kindOf k with
    | None => None
    | Some kind =>
        match resolveAll names ch (line + l) with
        | None => None
        | Some (children, line') =>
            Some (Build_OriginalScope
                    {| SourceMapScopes.line := line + l; column := c |}
                    {| SourceMapScopes.line := line' + el; column := ec |}
                    kind (resolveName n names)
                    (map (fun idx => at_ names idx) v) children,
                  line' + el)
        end
    end.
Proof.
  simpl. destruct (kindOf k); [|reflexivity].
  assert (E : forall ts line0,
            (fix resolveAll (ts : list ScopeTree) (line : Z)
               : option (list OriginalScope * Z) :=
               match ts with
               | [] => Some ([], line)
               | t :: ts =>
                   match resolve names line t with
                   | None => None
                   | Some (s, line) =>
                       match resolveAll ts line with
                       | None => None
                       | Some (ss, line) => Some (s :: ss, line)
                       end
                   end
               end) ts line0 = resolveAll names ts line0).
  { induction ts as [|t ts IHts]; intros line0; simpl; [reflexivity|].
    destruct (resolve names line0 t) as [[s0 l0]|]; [|reflexivity].
    now rewrite IHts. }
  now rewrite E.
Qed.

Lemma resolveAll_cons (names : list string) (t : ScopeTree)
    (ts : list ScopeTree) (line : Z) :
  resolveAll names (t :: ts) line
  = match resolve names line t with
    | None => None
    | Some (s, line) =>
        match resolveAll names ts line with
        | None => None
        | Some (ss, line) => Some (s :: ss, line)
        end
    end.
Proof. reflexivity. Qed.

Lemma addChildren_pushChild (frame s : OriginalScope) (ss : list OriginalScope) :
  addChildren (pushChild frame s) ss = addChildren frame (s :: ss).
Proof. destruct frame. simpl. now rewrite <- app_assoc. Qed.

Lemma addChildren_nil (frame : OriginalScope) : addChildren frame [] = frame.
Proof. destruct frame. simpl. now rewrite app_nil_r. Qed.

(** The loop on the item sequence of a tree: the scope of the tree is
    returned, or handed to the scope that is open. *)
Lemma decodeOriginalScopeLoop_flatten (names : list string) :
  forall t rest scopeStack line s line',
  resolve names line t = Some (s, line') ->
  decodeOriginalScopeLoop names (prepend (flatten t) rest) scopeStack line
  = match scopeStack with
    | [] => Normal s
    | parent :: up =>
        decodeOriginalScopeLoop names rest (pushChild parent s :: up) line'
    end.
Proof.
  induction t as [l c k f n v ch el ec IH] using ScopeTree_nested_ind.
  intros rest scopeStack line s line' H.
  rewrite resolve_eq in H.
  assert (Hforest : forall ts, Forall (fun t =>
              forall rest scopeStack line s line',
              resolve names line t = Some (s, line') ->
              decodeOriginalScopeLoop names (prepend (flatten t) rest)
                scopeStack line
              = match scopeStack with
                | [] => Normal s
                | parent :: up =>
                    decodeOriginalScopeLoop names rest
                      (pushChild parent s :: up) line'
                end) ts ->
            forall frame up line0 ss line1 rest0,
            resolveAll names ts line0 = Some (ss, line1) ->
            decodeOriginalScopeLoop names
              (prepend (flat_map flatten ts) rest0) (frame :: up) line0
            = decodeOriginalScopeLoop names rest0
                (addChildren frame ss :: up) line1).
  { induction 1 as [|t ts Ht _ IHts]; intros frame up line0 ss line1 rest0 E;
      simpl in E.
    - injection E as <- <-. now rewrite addChildren_nil.
    - destruct (resolve names line0 t) as [[s0 l0]|] eqn:Et; [|discriminate].
      destruct (resolveAll names ts l0) as [[ss0 l1]|] eqn:Ets; [|discriminate].
      injection E as <- <-. simpl. rewrite prepend_app.
      rewrite (Ht _ (frame :: up) _ _ _ Et).
      rewrite (IHts _ _ _ _ _ _ Ets). now rewrite addChildren_pushChild. }
  simpl. unfold decodeKind.
  destruct (kindOf k) as [kind|]; [|discriminate].
  destruct (resolveAll names ch (line + l)) as [[children l1]|] eqn:Ech;
    [|discriminate].
  injection H as <- <-.
  rewrite prepend_app, (Hforest ch IH _ _ _ _ _ _ Ech). simpl.
  destruct scopeStack; reflexivity.
Qed.

(** Whatever the loop returns with an open scope on the stack, it has read
    the item sequences of some trees, the children to come, and the end
    item of the open scope. *)
Lemma decodeOriginalScopeLoop_inv (names : list string) (n : nat) :
  forall items, (size items <= n)%nat ->
  forall frame up line s,
  decodeOriginalScopeLoop names items (frame :: up) line = Normal s ->
  exists ts ss el ec rest line',
    items = prepend (flat_map flatten ts)
              (Yield (EncodedOriginalScopeEnd el ec) rest)
    /\ resolveAll names ts line = Some (ss, line')
    /\ (size rest < size items)%nat
    /\ let closed :=
         setEnd (addChildren frame ss)
           {| SourceMapScopes.line := line' + el; column := ec |} in
       match up with
       | [] => s = closed
       | parent :: up' =>
           decodeOriginalScopeLoop names rest
             (pushChild parent closed :: up') (line' + el) = Normal s
       end.
Proof.
  induction n as [|n IHn]; intros items Hsize frame up line s H.
  - destruct items; simpl in *; try discriminate. lia.
  - destruct items as [| |item rest0]; simpl in H; try discriminate.
    simpl in Hsize.
    destruct item as [l c k f nm v | el ec].
    + unfold decodeKind in H. destruct (kindOf k) as [kind|] eqn:Hk;
        [|discriminate].
      simpl in H.
      destruct (IHn rest0 ltac:(lia) _ _ _ _ H)
        as (ts1 & ss1 & el1 & ec1 & rest1 & line1 & E1 & R1 & S1 & C1).
      cbv zeta in C1.
      destruct (IHn rest1 ltac:(lia) _ _ _ _ C1)
        as (ts2 & ss2 & el2 & ec2 & rest2 & line2 & E2 & R2 & S2 & C2).
      exists (ScopeNode l c k f nm v ts1 el1 ec1 :: ts2),
        (setEnd
           (addChildren
              (Build_OriginalScope
                 {| SourceMapScopes.line := line + l; column := c |}
                 {| SourceMapScopes.line := line + l; column := c |}
                 kind (resolveName nm names)
                 (map (fun idx => at_ names idx) v) []) ss1)
           {| SourceMapScopes.line := line1 + el1; column := ec1 |} :: ss2),
        el2, ec2, rest2, line2.
      split; [|split; [|split]].
      * simpl. rewrite <- app_assoc, !prepend_app. simpl.
        now rewrite E1, E2.
      * rewrite resolveAll_cons, resolve_eq, Hk, R1. simpl. now rewrite R2.
      * simpl. lia.
      * cbv zeta in *. rewrite addChildren_pushChild in C2. exact C2.
    + exists [], [], el, ec, rest0, line. simpl.
      split; [reflexivity|]. split; [reflexivity|]. split; [lia|].
      rewrite addChildren_nil. destruct up; [now injection H as <-|exact H].
Qed.

Lemma decodeOriginalScopeLoop_root (names : list string)
    (items : Generator EncodedOriginalScopeItem) (s : OriginalScope) :
  decodeOriginalScopeLoop names items [] 0 = Normal s ->
  exists t rest line',
    items = prepend (flatten t) rest /\ resolve names 0 t = Some (s, line').
Proof.
  destruct items as [| |item rest0]; simpl; try discriminate.
  destruct item as [l c k f nm v | el ec]; [|discriminate].
  unfold decodeKind. destruct (kindOf k) as [kind|] eqn:Hk; [|discriminate].
  intros H.
  destruct (decodeOriginalScopeLoop_inv names (size rest0) rest0
              (Nat.le_refl _) _ _ _ _ H)
    as (ts & ss & el & ec & rest & line' & E & R & _ & C).
  cbv zeta in C. subst s.
  exists (ScopeNode l c k f nm v ts el ec), rest, (line' + el).
  split.
  - simpl. now rewrite prepend_app, E.
  - rewrite resolve_eq, Hk. simpl in R |- *. rewrite R. reflexivity.
Qed.

(** X5: [decodeOriginalScope] returns a scope exactly when the items of the
    generator begin with a properly nested sequence, the items of a tree
    whose kinds are all known; the scope is then the one the tree stands
    for (lines summed up from 0, names resolved), and whatever the
    generator would do after that sequence, an error included, is not
    looked at. *)
Theorem decodeOriginalScope_nested
    (decodeOriginalScopeItems : string -> Generator EncodedOriginalScopeItem)
    (encodedOriginalScope : string) (names : list string)
    (s : OriginalScope) :
  decodeOriginalScope decodeOriginalScopeItems encodedOriginalScope names
  = Normal s
  <-> exists t rest line',
        decodeOriginalScopeItems encodedOriginalScope
        = prepend (flatten t) rest
        /\ resolve names 0 t = Some (s, line').
Proof.
  unfold decodeOriginalScope. split.
  - apply decodeOriginalScopeLoop_root.
  - intros (t & rest & line' & -> & R).
    now rewrite (decodeOriginalScopeLoop_flatten names t rest [] 0 s line' R).
Qed.

(** X5 on the example. *)
Example decodeOriginalScope_example :
  decodeOriginalScope exampleItems "" exampleNames = Normal exampleScope.
Proof. vm_compute. reflexivity. Qed.

(** Before the items of a tree are all read, the loop does not return: it
    goes on with what follows the items read so far. *)
Lemma decodeOriginalScopeLoop_prefix (names : list string)
    (g : Generator EncodedOriginalScopeItem) (R : Completion OriginalScope) :
  (forall scopeStack line, decodeOriginalScopeLoop names g scopeStack line = R) ->
  forall t items suffix scopeStack line s line',
  resolve names line t = Some (s, line') ->
  flatten t = items ++ suffix -> suffix <> [] ->
  decodeOriginalScopeLoop names (prepend items g) scopeStack line = R.
Proof.
  intros Hg.
  induction t as [l c k f n v ch el ec IH] using ScopeTree_nested_ind.
  intros items suffix scopeStack line s line' Hres Hflat Hsuf.
  destruct items as [|item items]; [apply Hg|].
  simpl in Hflat. injection Hflat as <- Hflat.
  rewrite resolve_eq in Hres.
  destruct (kindOf k) as [kind|] eqn:Hk; [|discriminate].
  destruct (resolveAll names ch (line + l)) as [[children l1]|] eqn:Ech;
    [|discriminate].
  simpl. unfold decodeKind. rewrite Hk.
  assert (Hforest : forall ts,
            Forall (fun t =>
              forall items suffix scopeStack line s line',
              resolve names line t = Some (s, line') ->
              flatten t = items ++ suffix -> suffix <> [] ->
              decodeOriginalScopeLoop names (prepend items g) scopeStack line
              = R) ts ->
            forall items frame line0 children l1,
            resolveAll names ts line0 = Some (children, l1) ->
            flat_map flatten ts ++ [EncodedOriginalScopeEnd el ec]
            = items ++ suffix ->
            decodeOriginalScopeLoop names (prepend items g)
              (frame :: scopeStack) line0 = R).
  { induction 1 as [|t ts Ht _ IHts];
      intros items0 frame line0 children0 l0' Ech0 Hflat0.
    - simpl in Hflat0. destruct items0 as [|item items0]; [apply Hg|].
      exfalso. injection Hflat0 as _ Hflat0.
      destruct items0; [|discriminate]. simpl in Hflat0. now subst.
    - rewrite resolveAll_cons in Ech0.
      destruct (resolve names line0 t) as [[s0 l0]|] eqn:Et; [|discriminate].
      destruct (resolveAll names ts l0) as [[ss0 l2]|] eqn:Ets; [|discriminate].
      simpl in Hflat0. rewrite <- app_assoc in Hflat0.
      apply app_eq_app in Hflat0.
      destruct Hflat0 as (mid & [[E1 E2] | [E1 E2]]).
      + destruct mid as [|m mid].
        * rewrite app_nil_r in E1. subst items0. simpl in E2.
          rewrite <- (app_nil_r (flatten t)), prepend_app.
          rewrite (decodeOriginalScopeLoop_flatten names t _
                     (frame :: scopeStack) line0 s0 l0 Et).
          eapply (IHts [] _ l0 _ _ Ets). simpl. now symmetry.
        * eapply (Ht items0 (m :: mid)); [exact Et | exact E1 | discriminate].
      + subst items0. rewrite prepend_app.
        rewrite (decodeOriginalScopeLoop_flatten names t _
                   (frame :: scopeStack) line0 s0 l0 Et).
        eapply (IHts mid _ l0 _ _ Ets). exact E2. }
  eapply Hforest; eassumption.
Qed.

(** X6: when the generator stops before the items of the first top-level
    scope are complete, [decodeOriginalScope] throws: "Malformed original
    scope encoding" when the generator just ends, the generator's own error
    when it throws one, and "Unknown scope kind k" when the next item is a
    start item of a kind [k] other than 1, 2, 3, 4. *)
Theorem decodeOriginalScope_truncated
    (decodeOriginalScopeItems : string -> Generator EncodedOriginalScopeItem)
    (encodedOriginalScope : string) (names : list string)
    (t : ScopeTree) (s : OriginalScope) (line' : Z)
    (items suffix : list EncodedOriginalScopeItem) :
  resolve names 0 t = Some (s, line') ->
  flatten t = items ++ suffix -> suffix <> [] ->
  (decodeOriginalScopeItems encodedOriginalScope = prepend items Done ->
   decodeOriginalScope decodeOriginalScopeItems encodedOriginalScope names
   = Abrupt "Malformed original scope encoding")
  /\ (forall message,
        decodeOriginalScopeItems encodedOriginalScope
        = prepend items (Raise message) ->
        decodeOriginalScope decodeOriginalScopeItems encodedOriginalScope names
        = Abrupt message)
  /\ (forall l c k f n v rest,
        kindOf k = None ->
        decodeOriginalScopeItems encodedOriginalScope
        = prepend items (Yield (EncodedOriginalScopeStart l c k f n v) rest) ->
        decodeOriginalScope decodeOriginalScopeItems encodedOriginalScope names
        = Abrupt ("Unknown scope kind " ++ toString k)).
Proof.
  intros Hres Hflat Hsuf. unfold decodeOriginalScope.
  split; [|split].
  - intros ->.
    eapply decodeOriginalScopeLoop_prefix;
      [reflexivity | exact Hres | exact Hflat | exact Hsuf].
  - intros message ->.
    eapply decodeOriginalScopeLoop_prefix;
      [reflexivity | exact Hres | exact Hflat | exact Hsuf].
  - intros l c k f n v rest Hk ->.
    eapply decodeOriginalScopeLoop_prefix;
      [| exact Hres | exact Hflat | exact Hsuf].
    intros scopeStack line. simpl. unfold decodeKind. now rewrite Hk.
Qed.

(** X6 on the example without its last item: the end of the items, and a
    start item of kind 7. *)
Lemma decodeOriginalScope_truncated_witness :
  decodeOriginalScope
    (fun _ => prepend (removelast (flatten exampleTree)) Done)
    "" exampleNames
  = Abrupt "Malformed original scope encoding"
  /\ decodeOriginalScope
       (fun _ => prepend (removelast (flatten exampleTree))
                   (Yield (EncodedOriginalScopeStart 0 0 7 0 None []) Done))
       "" exampleNames
     = Abrupt "Unknown scope kind 7".
Proof.
  assert (Hflat : flatten exampleTree
                  = removelast (flatten exampleTree)
                    ++ [EncodedOriginalScopeEnd 3 1]) by reflexivity.
  assert (Hsuf : [EncodedOriginalScopeEnd 3 1] <> []) by discriminate.
  split.
  - exact (proj1 (decodeOriginalScope_truncated
                    (fun _ => prepend (removelast (flatten exampleTree)) Done)
                    "" exampleNames exampleTree exampleScope 9 _ _
                    eq_refl Hflat Hsuf) eq_refl).
  - exact (proj2 (proj2 (decodeOriginalScope_truncated
                    (fun _ => prepend (removelast (flatten exampleTree))
                                (Yield (EncodedOriginalScopeStart 0 0 7 0 None [])
                                   Done))
                    "" exampleNames exampleTree exampleScope 9 _ _
                    eq_refl Hflat Hsuf))
             0 0 7 0 None [] Done eq_refl eq_refl).
Defined.

Lemma RangeTree_nested_ind (P : RangeTree -> Prop) :
  (forall l c f ch el ec, Forall P ch -> P (RangeNode l c f ch el ec)) ->
  forall t, P t.
Proof.
  intros H. fix IH 1. intros [l c f ch el ec]. apply H.
  revert ch. fix IHl 1. intros [|t ch]; constructor; [apply IH | apply IHl].
Qed.

Lemma addRanges_pushRange (frame r : GeneratedRange) (rs : list GeneratedRange) :
  addRanges (pushRange frame r) rs = addRanges frame (r :: rs).
Proof. destruct frame. simpl. now rewrite <- app_assoc. Qed.

Lemma addRanges_nil (frame : GeneratedRange) : addRanges frame [] = frame.
Proof. destruct frame. simpl. now rewrite app_nil_r. Qed.

Lemma decodeGeneratedRangesLoop_flatten :
  forall t rest rangeStack,
  decodeGeneratedRangesLoop (prepend (flattenRange t) rest) rangeStack
  = match rangeStack with
    | [] => Normal (resolveRange t)
    | parent :: up =>
        decodeGeneratedRangesLoop rest (pushRange parent (resolveRange t) :: up)
    end.
Proof.
  induction t as [l c f ch el ec IH] using RangeTree_nested_ind.
  intros rest rangeStack.
  assert (Hforest : forall ts, Forall (fun t =>
              forall rest rangeStack,
              decodeGeneratedRangesLoop (prepend (flattenRange t) rest)
                rangeStack
              = match rangeStack with
                | [] => Normal (resolveRange t)
                | parent :: up =>
                    decodeGeneratedRangesLoop rest
                      (pushRange parent (resolveRange t) :: up)
                end) ts ->
            forall frame up rest0,
            decodeGeneratedRangesLoop
              (prepend (flat_map flattenRange ts) rest0) (frame :: up)
            = decodeGeneratedRangesLoop rest0
                (addRanges frame (map resolveRange ts) :: up)).
  { induction 1 as [|t ts Ht _ IHts]; intros frame up rest0; simpl.
    - now rewrite addRanges_nil.
    - rewrite prepend_app, (Ht _ (frame :: up)), IHts.
      now rewrite addRanges_pushRange. }
  simpl. rewrite prepend_app, (Hforest ch IH). simpl.
  destruct rangeStack; reflexivity.
Qed.

Lemma decodeGeneratedRangesLoop_inv (n : nat) :
  forall items, (size items <= n)%nat ->
  forall frame up r,
  decodeGeneratedRangesLoop items (frame :: up) = Normal r ->
  exists ts el ec rest,
    items = prepend (flat_map flattenRange ts)
              (Yield (EncodedGeneratedRangeEnd el ec) rest)
    /\ (size rest < size items)%nat
    /\ let closed :=
         setRangeEnd (addRanges frame (map resolveRange ts))
           {| SourceMapScopes.line := el; column := ec |} in
       match up with
       | [] => r = closed
       | parent :: up' =>
           decodeGeneratedRangesLoop rest (pushRange parent closed :: up')
           = Normal r
       end.
Proof.
  induction n as [|n IHn]; intros items Hsize frame up r H.
  - destruct items; simpl in *; try discriminate. lia.
  - destruct items as [| |item rest0]; simpl in H; try discriminate.
    simpl in Hsize.
    destruct item as [l c f | el ec]; simpl in H.
    + destruct (IHn rest0 ltac:(lia) _ _ _ H)
        as (ts1 & el1 & ec1 & rest1 & E1 & S1 & C1).
      cbv zeta in C1.
      destruct (IHn rest1 ltac:(lia) _ _ _ C1)
        as (ts2 & el2 & ec2 & rest2 & E2 & S2 & C2).
      exists (RangeNode l c f ts1 el1 ec1 :: ts2), el2, ec2, rest2.
      split; [|split].
      * simpl. rewrite <- app_assoc, !prepend_app. simpl.
        now rewrite E1, E2.
      * simpl. lia.
      * cbv zeta in *. rewrite addRanges_pushRange in C2. exact C2.
    + exists [], el, ec, rest0. simpl.
      split; [reflexivity|]. split; [lia|].
      rewrite addRanges_nil. destruct up; [now injection H as <-|exact H].
Qed.

Lemma decodeGeneratedRangesLoop_root
    (items : Generator EncodedGeneratedRangeItem) (r : GeneratedRange) :
  decodeGeneratedRangesLoop items [] = Normal r ->
  exists t rest, items = prepend (flattenRange t) rest /\ r = resolveRange t.
Proof.
  destruct items as [| |item rest0]; simpl; try discriminate.
  destruct item as [l c f | el ec]; [|discriminate]. simpl. intros H.
  destruct (decodeGeneratedRangesLoop_inv (size rest0) rest0
              (Nat.le_refl _) _ _ _ H)
    as (ts & el & ec & rest & E & _ & C).
  cbv zeta in C. subst r.
  exists (RangeNode l c f ts el ec), rest. split.
  - simpl. now rewrite prepend_app, E.
  - reflexivity.
Qed.

(** X7: [decodeGeneratedRanges] returns a range exactly when the items of
    the generator begin with a properly nested sequence; the range is then
    the one the sequence stands for, with no original scope, no call site
    and no values anywhere in it, and whatever the generator would do after
    that sequence is not looked at. *)
Theorem decodeGeneratedRanges_nested
    (decodeGeneratedRangeItems : string -> Generator EncodedGeneratedRangeItem)
    (encodedGeneratedRange : string) (originalScopes : list OriginalScope)
    (names : list string) (r : GeneratedRange) :
  decodeGeneratedRanges decodeGeneratedRangeItems encodedGeneratedRange
    originalScopes names = Normal r
  <-> exists t rest,
        decodeGeneratedRangeItems encodedGeneratedRange
        = prepend (flattenRange t) rest
        /\ r = resolveRange t.
Proof.
  unfold decodeGeneratedRanges. split.
  - apply decodeGeneratedRangesLoop_root.
  - intros (t & rest & -> & ->).
    now rewrite (decodeGeneratedRangesLoop_flatten t rest []).
Qed.

(** X7 on the example, with a generator that throws after the first
    top-level range. *)
Example decodeGeneratedRanges_example :
  decodeGeneratedRanges
    (fun _ => prepend (flattenRange exampleRangeTree) (Raise "late"))
    "" [] [] = Normal exampleRange.
Proof. vm_compute. reflexivity. Qed.

Lemma before_refl (p : Position) : before p p.
Proof. right. split; [reflexivity | apply Z.le_refl]. Qed.

Lemma before_trans (p q r : Position) : before p q -> before q r -> before p r.
Proof. unfold before. lia. Qed.

Lemma ordered_prepend_inv (items : list EncodedOriginalScopeItem) :
  forall prevColumn rest,
  ordered prevColumn (prepend items rest) ->
  ordered prevColumn (prepend items Done).
Proof.
  induction items as [|item items IH]; intros prevColumn rest H; simpl in *;
    [exact I|].
  destruct H as (H1 & H2 & H3). repeat split; eauto.
Qed.

(** The scope of a tree whose items are in source order. *)
Lemma resolve_ordered (names : list string) :
  forall t line prevColumn s line' rest,
  ordered prevColumn (prepend (flatten t) rest) ->
  resolve names line t = Some (s, line') ->
  before {| SourceMapScopes.line := line; column := prevColumn |} (scopeStart s)
  /\ wellNested s
  /\ SourceMapScopes.line (scopeEnd s) = line'
  /\ ordered (column (scopeEnd s)) rest.
Proof.
  induction t as [l c k f n v ch el ec IH] using ScopeTree_nested_ind.
  intros line prevColumn s line' rest Hord Hres.
  rewrite resolve_eq in Hres.
  destruct (kindOf k) as [kind|]; [|discriminate].
  destruct (resolveAll names ch (line + l)) as [[children l1]|] eqn:Ech;
    [|discriminate].
  injection Hres as <- <-.
  simpl in Hord. destruct Hord as (Hl & Hc & Hord).
  rewrite prepend_app in Hord.
  assert (Hforest : forall ts,
            Forall (fun t =>
              forall line prevColumn s line' rest,
              ordered prevColumn (prepend (flatten t) rest) ->
              resolve names line t = Some (s, line') ->
              before {| SourceMapScopes.line := line; column := prevColumn |}
                (scopeStart s)
              /\ wellNested s
              /\ SourceMapScopes.line (scopeEnd s) = line'
              /\ ordered (column (scopeEnd s)) rest) ts ->
            forall lo ss line1 rest0,
            ordered (column lo) (prepend (flat_map flatten ts) rest0) ->
            resolveAll names ts (SourceMapScopes.line lo) = Some (ss, line1) ->
            exists last,
              SourceMapScopes.line last = line1
              /\ ordered (column last) rest0
              /\ (forall hi, before last hi -> chained lo hi ss)
              /\ Forall wellNested ss).
  { induction 1 as [|t ts Ht _ IHts]; intros lo ss line1 rest0 Ho Hr.
    - simpl in *. injection Hr as <- <-. exists lo. auto.
    - rewrite resolveAll_cons in Hr.
      destruct (resolve names (SourceMapScopes.line lo) t) as [[s0 l0]|] eqn:Et;
        [|discriminate].
      destruct (resolveAll names ts l0) as [[ss0 l2]|] eqn:Ets; [|discriminate].
      injection Hr as <- <-. simpl in Ho. rewrite prepend_app in Ho.
      destruct (Ht _ _ _ _ _ Ho Et) as (B & W & E & O).
      destruct (IHts (scopeEnd s0) ss0 l2 rest0 O) as (last & L1 & L2 & L3 & L4).
      { now rewrite E. }
      exists last. split; [exact L1|]. split; [exact L2|]. split.
      + intros hi Hhi. simpl. split; [|now apply L3]. now destruct lo.
      + now constructor. }
  destruct (Hforest ch IH {| SourceMapScopes.line := line + l; column := c |}
              children l1 _ Hord Ech) as (last & L1 & L2 & L3 & L4).
  simpl in L2. destruct L2 as (Hel & Hec & Hrest).
  simpl. split; [|split; [|split]].
  - unfold before. simpl. lia.
  - constructor; [|exact L4]. apply L3. unfold before. simpl. lia.
  - reflexivity.
  - exact Hrest.
Qed.

(** X8: when the items that the generator yields are in source order (no
    line delta is negative, and an item on the line of the item before has
    a column that is not smaller), the scope that [decodeOriginalScope]
    returns is well nested: every scope ends at or after its start, its
    children lie between its start and its end, and each child starts at
    or after the end of the child before. *)
Theorem decodeOriginalScope_wellNested
    (decodeOriginalScopeItems : string -> Generator EncodedOriginalScopeItem)
    (encodedOriginalScope : string) (names : list string)
    (s : OriginalScope) :
  ordered 0 (decodeOriginalScopeItems encodedOriginalScope) ->
  decodeOriginalScope decodeOriginalScopeItems encodedOriginalScope names
  = Normal s ->
  wellNested s.
Proof.
  intros Hord H. apply decodeOriginalScopeLoop_root in H.
  destruct H as (t & rest & line' & E & R). rewrite E in Hord.
  now destruct (resolve_ordered names t 0 0 s line' rest Hord R) as (_ & W & _).
Qed.

(** X8 on the example. *)
Lemma decodeOriginalScope_wellNested_witness : wellNested exampleScope.
Proof.
  apply (decodeOriginalScope_wellNested exampleItems "" exampleNames).
  - simpl. lia.
  - vm_compute. reflexivity.
Defined.

(** The range of a tree whose items have lines that never go back. *)
Lemma resolveRange_nested :
  forall t prev rest,
  linesMonotone prev (prepend (flattenRange t) rest) ->
  prev <= SourceMapScopes.line (rangeStart (resolveRange t))
  /\ linesNested (resolveRange t)
  /\ linesMonotone (SourceMapScopes.line (rangeEnd (resolveRange t))) rest.
Proof.
  induction t as [l c f ch el ec IH] using RangeTree_nested_ind.
  intros prev rest H. simpl in H. destruct H as [Hl H].
  rewrite prepend_app in H.
  assert (Hforest : forall ts,
            Forall (fun t =>
              forall prev rest,
              linesMonotone prev (prepend (flattenRange t) rest) ->
              prev <= SourceMapScopes.line (rangeStart (resolveRange t))
              /\ linesNested (resolveRange t)
              /\ linesMonotone
                   (SourceMapScopes.line (rangeEnd (resolveRange t))) rest) ts ->
            forall lo rest0,
            linesMonotone lo (prepend (flat_map flattenRange ts) rest0) ->
            exists last,
              linesMonotone last rest0
              /\ (forall hi, last <= hi ->
                    chainedLines lo hi (map resolveRange ts))
              /\ Forall linesNested (map resolveRange ts)).
  { induction 1 as [|t ts Ht _ IHts]; intros lo rest0 Ho.
    - exists lo. simpl in *. auto.
    - simpl in Ho. rewrite prepend_app in Ho.
      destruct (Ht _ _ Ho) as (B & W & O).
      destruct (IHts _ _ O) as (last & L1 & L2 & L3).
      exists last. split; [exact L1|]. split.
      + intros hi Hhi. simpl. split; [exact B | now apply L2].
      + simpl. now constructor. }
  destruct (Hforest ch IH l _ H) as (last & L1 & L2 & L3).
  simpl in L1. destruct L1 as [Hel Hrest].
  simpl. split; [exact Hl|]. split; [|exact Hrest].
  constructor; [|exact L3]. now apply L2.
Qed.

End ScopeDecoding.


(** ** SourceMapScopes.ts: what the generators yield *)

Section ItemGenerators.

Import SourceMapScopes Nested.

Local Open Scope Z_scope.

Variable TokenIterator : Type.
Variable newTokenIterator : string -> Completion TokenIterator.
Variable hasNext : TokenIterator -> Completion (bool * TokenIterator).
Variable peek : TokenIterator -> Completion (string * TokenIterator).
Variable next : TokenIterator -> Completion (string * TokenIterator).
Variable nextVLQ : TokenIterator -> Completion (Z * TokenIterator).
Variable peekVLQ : TokenIterator -> Completion (option Z * TokenIterator).

Ltac generator_step H :=
  match type of H with
  | Some _ = Some _ => injection H as <-
  | None = Some _ => discriminate H
  | call _ ?c _ = Some _ =>
      let r := fresh "r" in
      let it := fresh "it" in
      destruct c as [[r it]|?] eqn:?; simpl in H
  | yield _ ?rest = Some _ =>
      let g := fresh "g" in
      destruct rest as [g|] eqn:?; simpl in H
  | (if ?b then _ else _) = Some _ => destruct b eqn:?; simpl in H
  | match ?c with _ => _ end = Some _ => destruct c eqn:?; simpl in H
  end.

Lemma decodeOriginalScopeItemsLoop_invariants (fuel : nat) :
  forall iter prevColumn g,
  decodeOriginalScopeItemsLoop TokenIterator hasNext peek next nextVLQ
    fuel iter prevColumn = Some g ->
  columnsOrdered prevColumn g /\ allItems flagsRespected g.
Proof.
  induction fuel as [|fuel IH]; intros iter prevColumn g H; [discriminate|].
  simpl in H.
  repeat generator_step H.
  all: simpl; auto.
  all: match goal with
       | Hrest : decodeOriginalScopeItemsLoop _ _ _ _ _ _ _ _ = Some _ |- _ =>
           destruct (IH _ _ _ Hrest) as [IH1 IH2]
       end.
  all: match goal with
       | Hcheck : (?line =? 0) && (?column <? ?prev) = false |- _ =>
           assert (Hcol : line = 0 -> prev <= column)
             by (intros ->; simpl in Hcheck; now apply Z.ltb_ge in Hcheck)
       end.
  - auto.
  - repeat split; auto.
    + intros ->.
      match goal with
      | Hname : context [negb (Z.land ?f 1 =? 0)] |- _ =>
          destruct (Z.land f 1 =? 0) eqn:E; simpl in Hname;
          [now apply Z.eqb_eq in E|];
          match type of Hname with
          | match ?c with _ => _ end = _ =>
              destruct c as [[? ?]|?]; discriminate
          end
      end.
    + intros E.
      match goal with
      | Hname : context [negb (Z.land ?f 1 =? 0)] |- _ =>
          rewrite E in Hname; simpl in Hname; now injection Hname as <- _
      end.
    + intros E.
      match goal with
      | Hvars : context [negb (Z.land ?f 2 =? 0)] |- _ =>
          rewrite E in Hvars; simpl in Hvars; now injection Hvars as <- _
      end.
Qed.

(** X9: whatever the token iterator does, the items that
    [decodeOriginalScopeItems] yields respect the check of the loop and
    the flags: an item with line delta 0 has a column that is not smaller
    than the column of the item before (0 for the first item); a start
    item has a name exactly when bit 0 of its flags is set, and has no
    variables when bit 1 is clear. *)
Theorem decodeOriginalScopeItems_invariants
    (fuel : nat) (encodedOriginalScope : string)
    (g : Generator EncodedOriginalScopeItem) :
  decodeOriginalScopeItems TokenIterator newTokenIterator hasNext peek next
    nextVLQ fuel encodedOriginalScope = Some g ->
  columnsOrdered 0 g /\ allItems flagsRespected g.
Proof.
  unfold decodeOriginalScopeItems.
  destruct (newTokenIterator encodedOriginalScope) as [iter|message]; intros H.
  - now apply decodeOriginalScopeItemsLoop_invariants in H.
  - injection H as <-. simpl. auto.
Qed.

Lemma columnsOrdered_ordered (g : Generator EncodedOriginalScopeItem) :
  forall prevColumn,
  columnsOrdered prevColumn g ->
  allItems (fun item => 0 <= itemLine item) g ->
  ordered prevColumn g.
Proof.
  induction g as [| |item rest IH]; intros prevColumn Hc Hl; simpl in *; auto.
  destruct Hc as [Hc1 Hc2], Hl as [Hl1 Hl2]. auto.
Qed.

(** X10: the generator and the decoder together.  When no item that
    [decodeOriginalScopeItems] yields has a negative line delta, the scope
    that [decodeOriginalScope] builds from these items is well nested,
    whatever the token iterator does: the check of the generator is what
    the nesting of the scopes needs. *)
Theorem decodeOriginalScope_generator_wellNested
    (fuel : nat) (encodedOriginalScope : string) (names : list string)
    (g : Generator EncodedOriginalScopeItem) (s : OriginalScope) :
  decodeOriginalScopeItems TokenIterator newTokenIterator hasNext peek next
    nextVLQ fuel encodedOriginalScope = Some g ->
  allItems (fun item => 0 <= itemLine item) g ->
  decodeOriginalScope (fun _ => g) encodedOriginalScope names = Normal s ->
  wellNested s.
Proof.
  intros Hg Hl H.
  unfold decodeOriginalScopeItems in Hg.
  assert (Hord : ordered 0 g).
  { apply columnsOrdered_ordered; [|exact Hl].
    destruct (newTokenIterator encodedOriginalScope) as [iter|message].
    - now apply decodeOriginalScopeItemsLoop_invariants in Hg.
    - injection Hg as <-. exact I. }
  apply decodeOriginalScopeLoop_root in H.
  destruct H as (t & rest & line' & E & R). rewrite E in Hord.
  now destruct (resolve_ordered names t 0 0 s line' rest Hord R) as (_ & W & _).
Qed.

Lemma linesMonotone_le (g : Generator EncodedGeneratedRangeItem)
    (prevLine line : Z) :
  prevLine <= line -> linesMonotone line g -> linesMonotone prevLine g.
Proof.
  destruct g as [| |item rest]; simpl; auto.
  intros Hle [H1 H2]. split; [lia | exact H2].
Qed.

Lemma decodeGeneratedRangeItemsLoop_linesMonotone (fuel : nat) :
  forall iter line state g,
  decodeGeneratedRangeItemsLoop TokenIterator hasNext peek next nextVLQ peekVLQ
    fuel iter line state = Some g ->
  linesMonotone line g.
Proof.
  induction fuel as [|fuel IH]; intros iter line state g H; [discriminate|].
  simpl in H.
  repeat generator_step H.
  all: simpl; auto.
  all: match goal with
       | Hrest : decodeGeneratedRangeItemsLoop _ _ _ _ _ _ _ _ _ _ = Some _
         |- _ => apply IH in Hrest
       end.
  all: try (split; [apply Z.le_refl | assumption]).
  - apply linesMonotone_le with (line := line + 1); [lia | assumption].
  - assumption.
Qed.

(** X11: the generator and the decoder together.  The range that
    [decodeGeneratedRanges] builds from the items of
    [decodeGeneratedRangeItems] is nested by lines, whatever the token
    iterator does: every range ends on the line where it starts or on a
    later one, its children lie between its start line and its end line,
    and each child starts on the end line of the child before or later. *)
Theorem decodeGeneratedRanges_generator_linesNested
    (fuel : nat) (encodedGeneratedRange : string)
    (originalScopes : list OriginalScope) (names : list string)
    (g : Generator EncodedGeneratedRangeItem) (r : GeneratedRange) :
  decodeGeneratedRangeItems TokenIterator newTokenIterator hasNext peek next
    nextVLQ peekVLQ fuel encodedGeneratedRange = Some g ->
  decodeGeneratedRanges (fun _ => g) encodedGeneratedRange originalScopes names
  = Normal r ->
  0 <= line (rangeStart r) /\ linesNested r.
Proof.
  intros Hg H.
  unfold decodeGeneratedRangeItems in Hg.
  assert (Hmon : linesMonotone 0 g).
  { destruct (newTokenIterator encodedGeneratedRange) as [iter|message].
    - now apply decodeGeneratedRangeItemsLoop_linesMonotone in Hg.
    - injection Hg as <-. exact I. }
  apply decodeGeneratedRangesLoop_root in H.
  destruct H as (t & rest & E & ->). rewrite E in Hmon.
  destruct (resolveRange_nested t 0 rest Hmon) as (H0 & W & _). auto.
Qed.

(** *** Termination

    The loops of the generators end on every token iterator whose reads
    consume input: [remaining] bounds the input left, [hasNext] answers
    [true] only when some is left, and [next] and [nextVLQ] take at least
    one character when some is left. *)
Section Termination.

Variable remaining : TokenIterator -> nat.

Hypothesis hasNext_remaining : forall iter more iter',
  hasNext iter = Normal (more, iter') ->
  (remaining iter' <= remaining iter)%nat
  /\ (more = true -> (0 < remaining iter')%nat).
Hypothesis peek_remaining : forall iter c iter',
  peek iter = Normal (c, iter') -> (remaining iter' <= remaining iter)%nat.
Hypothesis peekVLQ_remaining : forall iter v iter',
  peekVLQ iter = Normal (v, iter') -> (remaining iter' <= remaining iter)%nat.
Hypothesis next_remaining : forall iter c iter',
  next iter = Normal (c, iter') ->
  (remaining iter' <= remaining iter - 1)%nat.
Hypothesis nextVLQ_remaining : forall iter v iter',
  nextVLQ iter = Normal (v, iter') ->
  (remaining iter' <= remaining iter - 1)%nat.

Ltac remaining_facts :=
  repeat match goal with
  | E : hasNext _ = Normal (true, _) |- _ =>
      let Hp := fresh "Hp" in
      destruct (hasNext_remaining _ _ _ E) as [? Hp];
      specialize (Hp eq_refl); clear E
  | E : hasNext _ = Normal (false, _) |- _ =>
      destruct (hasNext_remaining _ _ _ E) as [? _]; clear E
  | E : peek _ = Normal _ |- _ => apply peek_remaining in E
  | E : peekVLQ _ = Normal _ |- _ => apply peekVLQ_remaining in E
  | E : next _ = Normal _ |- _ => apply next_remaining in E
  | E : nextVLQ _ = Normal _ |- _ => apply nextVLQ_remaining in E
  end.

Ltac iterator_step :=
  match goal with
  | |- context [if ?b then _ else _] => destruct b eqn:?
  | |- context [hasNext ?i] => destruct (hasNext i) as [[[|] ?]|?] eqn:?
  | |- context [peek ?i] => destruct (peek i) as [[? ?]|?] eqn:?
  | |- context [next ?i] => destruct (next i) as [[? ?]|?] eqn:?
  | |- context [nextVLQ ?i] => destruct (nextVLQ i) as [[? ?]|?] eqn:?
  | |- context [peekVLQ ?i] => destruct (peekVLQ i) as [[[?|] ?]|?] eqn:?
  end; simpl.

Ltac finished :=
  eexists; intros; reflexivity.

Lemma enough_fuel {A} (f : nat -> option A) (fuel : nat) :
  (exists g, forall fuel', (fuel <= fuel')%nat -> f (S fuel') = Some g) ->
  exists g, forall fuel', (S fuel <= fuel')%nat -> f fuel' = Some g.
Proof.
  intros [g Hg]. exists g. intros [|fuel'] Hle; [lia|]. apply Hg. lia.
Qed.

Lemma readVariables_terminates (fuel : nat) :
  forall iter variables,
  (remaining iter < fuel)%nat ->
  exists c,
    (forall fuel', (fuel <= fuel')%nat ->
       readVariables TokenIterator hasNext peek nextVLQ fuel' iter variables
       = Some c)
    /\ (forall vs iter', c = Normal (vs, iter') ->
          (remaining iter' <= remaining iter)%nat).
Proof.
  induction fuel as [|fuel IH]; intros iter variables Hlt; [lia|].
  cut (exists c,
    (forall fuel', (fuel <= fuel')%nat ->
       readVariables TokenIterator hasNext peek nextVLQ (S fuel') iter variables
       = Some c)
    /\ (forall vs iter', c = Normal (vs, iter') ->
          (remaining iter' <= remaining iter)%nat)).
  { intros (c & Hc & Hb). exists c. split; [|exact Hb].
    intros [|fuel'] Hle; [lia|]. apply Hc. lia. }
  simpl.
  repeat iterator_step.
  all: try (eexists; split; [intros; reflexivity|];
            intros vs iter' [=]; subst; remaining_facts; lia).
  match goal with
  | |- context [readVariables _ _ _ _ _ ?i ?v] =>
      destruct (IH i v) as (c & Hc & Hb); [remaining_facts; lia|]
  end.
  exists c. split; [exact Hc|].
  intros vs iter' E. specialize (Hb vs iter' E). remaining_facts. lia.
Qed.

Lemma decodeOriginalScopeItemsLoop_terminates (fuel : nat) :
  forall iter prevColumn,
  (remaining iter < fuel)%nat ->
  exists g, forall fuel', (fuel <= fuel')%nat ->
    decodeOriginalScopeItemsLoop TokenIterator hasNext peek next nextVLQ
      fuel' iter prevColumn = Some g.
Proof.
  induction fuel as [|fuel IH]; intros iter prevColumn Hlt; [lia|].
  apply (enough_fuel (fun fuel' =>
    decodeOriginalScopeItemsLoop TokenIterator hasNext peek next nextVLQ
      fuel' iter prevColumn)).
  simpl. unfold call.
  repeat iterator_step.
  all: try finished.
  all: try match goal with
       | |- context [readVariables _ _ _ _ _ ?i ?v] =>
           let c := fresh "c" in
           let Hc := fresh "Hc" in
           let Hb := fresh "Hb" in
           destruct (readVariables_terminates fuel i v) as (c & Hc & Hb);
           [remaining_facts; lia|];
           let iter' := fresh "iter'" in
           destruct c as [[? iter']|?];
           [specialize (Hb _ _ eq_refl);
            match goal with
            | |- context [decodeOriginalScopeItemsLoop _ _ _ _ _ _ _ ?p] =>
                let g := fresh "g" in
                let Hg := fresh "Hg" in
                destruct (IH iter' p) as [g Hg]; [remaining_facts; lia|];
                eexists; intros; rewrite Hc by assumption; unfold yield;
                rewrite Hg by assumption; reflexivity
            end
           |eexists; intros; rewrite Hc by assumption; reflexivity]
       end.
  all: match goal with
       | |- context [decodeOriginalScopeItemsLoop _ _ _ _ _ _ ?i ?p] =>
           let g := fresh "g" in
           let Hg := fresh "Hg" in
           destruct (IH i p) as [g Hg]; [remaining_facts; lia|];
           eexists; intros; unfold yield; rewrite Hg by assumption;
           reflexivity
       end.
Qed.

(** X12: [decodeOriginalScopeItems] ends on every token iterator whose
    reads consume input: with more rounds than there is input left its
    loops end, and the items do not depend on the number of rounds
    allowed. *)
Theorem decodeOriginalScopeItems_terminates
    (encodedOriginalScope : string) (fuel : nat) :
  (forall iter, newTokenIterator encodedOriginalScope = Normal iter ->
     (remaining iter < fuel)%nat) ->
  exists g, forall fuel', (fuel <= fuel')%nat ->
    decodeOriginalScopeItems TokenIterator newTokenIterator hasNext peek next
      nextVLQ fuel' encodedOriginalScope = Some g.
Proof.
  intros Hlt. unfold decodeOriginalScopeItems.
  destruct (newTokenIterator encodedOriginalScope) as [iter|message].
  - apply decodeOriginalScopeItemsLoop_terminates. now apply Hlt.
  - finished.
Qed.

Lemma decodeGeneratedRangeItemsLoop_terminates (fuel : nat) :
  forall iter line state,
  (remaining iter < fuel)%nat ->
  exists g, forall fuel', (fuel <= fuel')%nat ->
    decodeGeneratedRangeItemsLoop TokenIterator hasNext peek next nextVLQ
      peekVLQ fuel' iter line state = Some g.
Proof.
  induction fuel as [|fuel IH]; intros iter line state Hlt; [lia|].
  apply (enough_fuel (fun fuel' =>
    decodeGeneratedRangeItemsLoop TokenIterator hasNext peek next nextVLQ
      peekVLQ fuel' iter line state)).
  simpl. unfold call.
  repeat iterator_step.
  all: try finished.
  all: match goal with
       | |- context [decodeGeneratedRangeItemsLoop _ _ _ _ _ _ _ ?i ?l ?st] =>
           let g := fresh "g" in
           let Hg := fresh "Hg" in
           destruct (IH i l st) as [g Hg]; [remaining_facts; lia|];
           eexists; intros; unfold yield; rewrite Hg by assumption;
           reflexivity
       end.
Qed.

(** X13: [decodeGeneratedRangeItems] ends on every token iterator whose
    reads consume input, and its items do not depend on the number of
    rounds allowed. *)
Theorem decodeGeneratedRangeItems_terminates
    (encodedGeneratedRange : string) (fuel : nat) :
  (forall iter, newTokenIterator encodedGeneratedRange = Normal iter ->
     (remaining iter < fuel)%nat) ->
  exists g, forall fuel', (fuel <= fuel')%nat ->
    decodeGeneratedRangeItems TokenIterator newTokenIterator hasNext peek next
      nextVLQ peekVLQ fuel' encodedGeneratedRange = Some g.
Proof.
  intros Hlt. unfold decodeGeneratedRangeItems.
  destruct (newTokenIterator encodedGeneratedRange) as [iter|message].
  - apply decodeGeneratedRangeItemsLoop_terminates. now apply Hlt.
  - finished.
Qed.

End Termination.

End ItemGenerators.

(** ** SourceMapScopes.ts: the generators on a token list *)

Section TokenLists.

Import SourceMapScopes Nested.

Local Open Scope Z_scope.

Lemma tokensHasNext_remaining (iter : list Token) (more : bool)
    (iter' : list Token) :
  tokensHasNext iter = Normal (more, iter') ->
  (List.length iter' <= List.length iter)%nat /\ (more = true -> (0 < List.length iter')%nat).
Proof.
  destruct iter as [|token iter]; intros [= <- <-]; simpl; split;
    try lia; discriminate.
Qed.

Lemma tokensPeek_remaining (iter : list Token) (c : string)
    (iter' : list Token) :
  tokensPeek iter = Normal (c, iter') -> (List.length iter' <= List.length iter)%nat.
Proof. intros [= _ <-]. lia. Qed.

Lemma tokensPeekVLQ_remaining (iter : list Token) (v : option Z)
    (iter' : list Token) :
  tokensPeekVLQ iter = Normal (v, iter') -> (List.length iter' <= List.length iter)%nat.
Proof. intros [= _ <-]. lia. Qed.

Lemma tokensNext_remaining (iter : list Token) (c : string)
    (iter' : list Token) :
  tokensNext iter = Normal (c, iter') -> (List.length iter' <= List.length iter - 1)%nat.
Proof. destruct iter as [|token iter]; intros [= _ <-]; simpl; lia. Qed.

Lemma tokensNextVLQ_remaining (iter : list Token) (v : Z)
    (iter' : list Token) :
  tokensNextVLQ iter = Normal (v, iter') ->
  (List.length iter' <= List.length iter - 1)%nat.
Proof.
  destruct iter as [|[| |n] iter]; simpl; try discriminate.
  intros [= _ <-]. lia.
Qed.

(** X9 on the tokens of the example scope. *)
Lemma decodeOriginalScopeItems_invariants_witness :
  columnsOrdered 0 (prepend (flatten exampleTree) Done)
  /\ allItems flagsRespected (prepend (flatten exampleTree) Done).
Proof.
  apply (decodeOriginalScopeItems_invariants (list Token)
           (fun _ => Normal exampleTokens) tokensHasNext tokensPeek tokensNext
           tokensNextVLQ 20 "").
  vm_compute. reflexivity.
Defined.

(** X10 on the tokens of the example scope. *)
Lemma decodeOriginalScope_generator_wellNested_witness :
  wellNested exampleScope.
Proof.
  apply (decodeOriginalScope_generator_wellNested (list Token)
           (fun _ => Normal exampleTokens) tokensHasNext tokensPeek tokensNext
           tokensNextVLQ 20 "" exampleNames
           (prepend (flatten exampleTree) Done)).
  - vm_compute. reflexivity.
  - simpl. lia.
  - vm_compute. reflexivity.
Defined.

(** X11 on the tokens of the example range. *)
Lemma decodeGeneratedRanges_generator_linesNested_witness :
  0 <= line (rangeStart exampleRange) /\ linesNested exampleRange.
Proof.
  apply (decodeGeneratedRanges_generator_linesNested (list Token)
           (fun _ => Normal exampleRangeTokens) tokensHasNext tokensPeek
           tokensNext tokensNextVLQ tokensPeekVLQ 20 "" [] []
           (prepend (flattenRange exampleRangeTree) Done)).
  - vm_compute. reflexivity.
  - vm_compute. reflexivity.
Defined.

(** X12 on the tokens of the example scope: 17 tokens, 18 rounds. *)
Lemma decodeOriginalScopeItems_terminates_witness :
  exists g, forall fuel', (18 <= fuel')%nat ->
    decodeOriginalScopeItems (list Token) (fun _ => Normal exampleTokens)
      tokensHasNext tokensPeek tokensNext tokensNextVLQ fuel' "" = Some g.
Proof.
  apply (decodeOriginalScopeItems_terminates (list Token)
           (fun _ => Normal exampleTokens) tokensHasNext tokensPeek tokensNext
           tokensNextVLQ (@List.length Token) tokensHasNext_remaining
           tokensPeek_remaining tokensNext_remaining tokensNextVLQ_remaining
           "" 18).
  intros iter [= <-]. simpl. lia.
Defined.

(** X13 on the tokens of the example range: 12 tokens, 13 rounds. *)
Lemma decodeGeneratedRangeItems_terminates_witness :
  exists g, forall fuel', (13 <= fuel')%nat ->
    decodeGeneratedRangeItems (list Token)
      (fun _ => Normal exampleRangeTokens) tokensHasNext tokensPeek tokensNext
      tokensNextVLQ tokensPeekVLQ fuel' "" = Some g.
Proof.
  apply (decodeGeneratedRangeItems_terminates (list Token)
           (fun _ => Normal exampleRangeTokens) tokensHasNext tokensPeek
           tokensNext tokensNextVLQ tokensPeekVLQ (@List.length Token)
           tokensHasNext_remaining tokensPeek_remaining
           tokensPeekVLQ_remaining tokensNext_remaining
           tokensNextVLQ_remaining "" 13).
  intros iter [= <-]. simpl. lia.
Defined.

(** The two functions of the file on the token lists of the examples. *)
Example decodeOriginalScope_tokens :
  decodeOriginalScopeItems (list Token) (fun _ => Normal exampleTokens)
    tokensHasNext tokensPeek tokensNext tokensNextVLQ 18 ""
  = Some (prepend (flatten exampleTree) Done)
  /\ decodeOriginalScope (fun _ => prepend (flatten exampleTree) Done) ""
       exampleNames
     = Normal exampleScope.
Proof. split; vm_compute; reflexivity. Qed.

Example decodeGeneratedRanges_tokens :
  decodeGeneratedRangeItems (list Token) (fun _ => Normal exampleRangeTokens)
    tokensHasNext tokensPeek tokensNext tokensNextVLQ tokensPeekVLQ 13 ""
  = Some (prepend (flattenRange exampleRangeTree) Done)
  /\ decodeGeneratedRanges
       (fun _ => prepend (flattenRange exampleRangeTree) Done) "" [] []
     = Normal exampleRange.
Proof. split; vm_compute; reflexivity. Qed.

(** X14: [decodeOriginalScopes] decodes every encoded scope on its own
    and in order: it returns one scope per string, the scope that
    [decodeOriginalScope] returns for that string, and when some string
    fails it throws the error of the first one that does. *)
Theorem decodeOriginalScopes_each
    (decodeOriginalScopeItems : string -> Generator EncodedOriginalScopeItem)
    (encodedOriginalScopes : list string) (names : list string) :
  match decodeOriginalScopes decodeOriginalScopeItems encodedOriginalScopes
          names with
  | Normal scopes =>
      Forall2 (fun encoded scope =>
                 decodeOriginalScope decodeOriginalScopeItems encoded names
                 = Normal scope)
        encodedOriginalScopes scopes
  | Abrupt message =>
      exists decoded scopes failed rest,
        encodedOriginalScopes = decoded ++ failed :: rest
        /\ Forall2 (fun encoded scope =>
                      decodeOriginalScope decodeOriginalScopeItems encoded names
                      = Normal scope)
             decoded scopes
        /\ decodeOriginalScope decodeOriginalScopeItems failed names
           = Abrupt message
  end.
Proof.
  induction encodedOriginalScopes as [|encoded rest IH]; simpl.
  - constructor.
  - destruct (decodeOriginalScope decodeOriginalScopeItems encoded names)
      as [scope|message] eqn:E.
    + destruct (decodeOriginalScopes decodeOriginalScopeItems rest names)
        as [scopes|message].
      * now constructor.
      * destruct IH as (decoded & scopes & failed & rest' & -> & F & Hf).
        exists (encoded :: decoded), (scope :: scopes), failed, rest'.
        repeat split; [now constructor | exact Hf].
    + exists [], [], encoded, rest. repeat split; [constructor | exact E].
Qed.

End TokenLists.
